(** * Cloth simulation: a shallow embedding of [cloth_simulation.c]

    The physics core of the program (materials, particles, constraints,
    the force rules, the constraint rules, initialisation, pointer
    interaction and the loop body of [main]) is transcribed into Rocq
    functions; rendering and the SDL set-up change no state of the
    simulation and are left out.

    - [float] arithmetic is kept abstract in the type class [Scalar].
      The instance [binary32] is IEEE 754 single precision with
      round-to-nearest-even, built on the parameterised operations of
      [SpecFloat] with [prec = 24] and [emax = 128]: this is the
      arithmetic of the program, under the usual reading that every
      [float] expression is evaluated in single precision and in the
      association order written, without fused operations.  The
      instance on [R] is exact arithmetic.
    - [int] values (grid indices, pointer coordinates) are in [Z] or
      [nat]; none of the integer expressions of the program can
      overflow.  The tick count is an unsigned 32-bit value and its
      difference wraps.
    - Arrays are lists read with [!!] and written with [<[i := v]>];
      a [Particle *] is the index of the particle in [particles], and
      a [Material *] is the name of the [Material] object it points
      to, so that all particles see an assignment to
      [current_material].
    - A function pointer is the name of the function it holds, and a
      call through it is a case distinction ([call_force],
      [call_solve]). *)

From Stdlib Require Import ZArith Bool List Lia Reals Lra.
From Stdlib Require Import Floats.SpecFloat.
From stdpp Require Import base list.

Open Scope Z_scope.

(** ** Numbers *)

(** The operations the program applies to [float] values.  [of_int] is
    the conversion of a C integer to [float]. *)
Class Scalar (F : Type) := {
  fadd : F -> F -> F;
  fsub : F -> F -> F;
  fmul : F -> F -> F;
  fdiv : F -> F -> F;
  fsqrt : F -> F;
  fltb : F -> F -> bool;
  feqb : F -> F -> bool;
  of_int : Z -> F
}.

(** [a > b] in C. *)
Definition fgtb {F} `{Scalar F} (a b : F) : bool := fltb b a.

(** A decimal literal [n/d] with the suffix [f]: both [n] and [d] are
    small enough to convert exactly, so the correctly rounded quotient
    is the correctly rounded literal. *)
Definition flit {F} `{Scalar F} (n d : Z) : F := fdiv (of_int n) (of_int d).

(** IEEE 754 single precision. *)
Definition binary32 : Type := spec_float.

Definition prec32 : Z := 24.
Definition emax32 : Z := 128.

#[export] Instance binary32_scalar : Scalar binary32 := {|
  fadd := SFadd prec32 emax32;
  fsub := SFsub prec32 emax32;
  fmul := SFmul prec32 emax32;
  fdiv := SFdiv prec32 emax32;
  fsqrt := SFsqrt prec32 emax32;
  fltb := SFltb;
  feqb := SFeqb;
  of_int := fun z => binary_normalize prec32 emax32 z 0 false
|}.

(** Exact arithmetic on the reals. *)
Definition Rltb (a b : R) : bool := if Rlt_dec a b then true else false.
Definition Reqb (a b : R) : bool := if Req_dec_T a b then true else false.

#[export] Instance real_scalar : Scalar R := {|
  fadd := Rplus;
  fsub := Rminus;
  fmul := Rmult;
  fdiv := Rdiv;
  fsqrt := sqrt;
  fltb := Rltb;
  feqb := Reqb;
  of_int := IZR
|}.

(** ** The program *)

(** [#define]s of the source. *)
Definition SCREEN_WIDTH : Z := 800.
Definition SCREEN_HEIGHT : Z := 600.
Definition GRID_WIDTH : nat := 50.
Definition GRID_HEIGHT : nat := 30.
Definition PARTICLE_SPACING : Z := 15.

(** Sizes of the two global arrays. *)
Definition NUM_PARTICLES : nat := (GRID_WIDTH * GRID_HEIGHT)%nat.
Definition NUM_CONSTRAINTS : nat :=
  ((GRID_WIDTH - 1) * GRID_HEIGHT + GRID_WIDTH * (GRID_HEIGHT - 1))%nat.

(** The functions a [ForceFunction], [EnergyFunction] or
    [ConstraintFunction] pointer of the program can hold. *)
Inductive ForceFunction :=
  | ptr_apply_force_cotton
  | ptr_apply_force_silk
  | ptr_apply_force_denim.

Inductive EnergyFunction :=
  | ptr_calc_energy_cotton
  | ptr_calc_energy_silk
  | ptr_calc_energy_denim.

Inductive ConstraintFunction :=
  | ptr_solve_constraint_cotton
  | ptr_solve_constraint_silk
  | ptr_solve_constraint_denim.

(** The [Material] objects of the program, as targets of a
    [Material *]. *)
Inductive MaterialPtr :=
  | addr_current_material
  | addr_COTTON
  | addr_SILK
  | addr_DENIM.

Section Program.

Context {F : Type} `{Scalar F}.

(** The field [mass] of [Material] is [m_mass] here: [mass] names the
    field of [Particle]. *)
Record Material := {
  elasticity : F;
  m_mass : F;
  stiffness : F;
  damping : F;
  tear_distance : F;
  air_friction : F;
  bend_stiffness : F;
  apply_force : ForceFunction;
  calc_energy : EnergyFunction;
  solve_constraint : ConstraintFunction
}.

Record Particle := {
  x : F; y : F;
  old_x : F; old_y : F;
  vx : F; vy : F;
  force_x : F; force_y : F;
  mass : F;
  locked : bool;
  neighbors : list nat;
  num_neighbors : Z;
  material : MaterialPtr
}.

(** [p1] and [p2] point into [particles]. *)
Record Constraint := {
  p1 : nat; p2 : nat;
  rest_length : F;
  strength : F
}.

Definition COTTON : Material := {|
  elasticity := flit 3 10;
  m_mass := flit 10 10;
  stiffness := flit 8 10;
  damping := flit 99 100;
  tear_distance := flit 250 10;
  air_friction := flit 2 100;
  bend_stiffness := flit 3 10;
  apply_force := ptr_apply_force_cotton;
  calc_energy := ptr_calc_energy_cotton;
  solve_constraint := ptr_solve_constraint_cotton
|}.

Definition SILK : Material := {|
  elasticity := flit 5 10;
  m_mass := flit 7 10;
  stiffness := flit 6 10;
  damping := flit 995 1000;
  tear_distance := flit 200 10;
  air_friction := flit 3 100;
  bend_stiffness := flit 2 10;
  apply_force := ptr_apply_force_silk;
  calc_energy := ptr_calc_energy_silk;
  solve_constraint := ptr_solve_constraint_silk
|}.

Definition DENIM : Material := {|
  elasticity := flit 1 10;
  m_mass := flit 15 10;
  stiffness := flit 9 10;
  damping := flit 98 100;
  tear_distance := flit 350 10;
  air_friction := flit 1 100;
  bend_stiffness := flit 7 10;
  apply_force := ptr_apply_force_denim;
  calc_energy := ptr_calc_energy_denim;
  solve_constraint := ptr_solve_constraint_denim
|}.

(** [*m] when the global [current_material] holds [cm]. *)
Definition deref (cm : Material) (m : MaterialPtr) : Material :=
  match m with
  | addr_current_material => cm
  | addr_COTTON => COTTON
  | addr_SILK => SILK
  | addr_DENIM => DENIM
  end.

(** Assignments to one field of a particle. *)
Definition set_x (v : F) (p : Particle) : Particle :=
  {| x := v; y := y p; old_x := old_x p; old_y := old_y p;
     vx := vx p; vy := vy p; force_x := force_x p; force_y := force_y p;
     mass := mass p; locked := locked p; neighbors := neighbors p;
     num_neighbors := num_neighbors p; material := material p |}.

Definition set_y (v : F) (p : Particle) : Particle :=
  {| x := x p; y := v; old_x := old_x p; old_y := old_y p;
     vx := vx p; vy := vy p; force_x := force_x p; force_y := force_y p;
     mass := mass p; locked := locked p; neighbors := neighbors p;
     num_neighbors := num_neighbors p; material := material p |}.

Definition set_old_x (v : F) (p : Particle) : Particle :=
  {| x := x p; y := y p; old_x := v; old_y := old_y p;
     vx := vx p; vy := vy p; force_x := force_x p; force_y := force_y p;
     mass := mass p; locked := locked p; neighbors := neighbors p;
     num_neighbors := num_neighbors p; material := material p |}.

Definition set_old_y (v : F) (p : Particle) : Particle :=
  {| x := x p; y := y p; old_x := old_x p; old_y := v;
     vx := vx p; vy := vy p; force_x := force_x p; force_y := force_y p;
     mass := mass p; locked := locked p; neighbors := neighbors p;
     num_neighbors := num_neighbors p; material := material p |}.

Definition set_vx (v : F) (p : Particle) : Particle :=
  {| x := x p; y := y p; old_x := old_x p; old_y := old_y p;
     vx := v; vy := vy p; force_x := force_x p; force_y := force_y p;
     mass := mass p; locked := locked p; neighbors := neighbors p;
     num_neighbors := num_neighbors p; material := material p |}.

Definition set_vy (v : F) (p : Particle) : Particle :=
  {| x := x p; y := y p; old_x := old_x p; old_y := old_y p;
     vx := vx p; vy := v; force_x := force_x p; force_y := force_y p;
     mass := mass p; locked := locked p; neighbors := neighbors p;
     num_neighbors := num_neighbors p; material := material p |}.

Definition set_force_x (v : F) (p : Particle) : Particle :=
  {| x := x p; y := y p; old_x := old_x p; old_y := old_y p;
     vx := vx p; vy := vy p; force_x := v; force_y := force_y p;
     mass := mass p; locked := locked p; neighbors := neighbors p;
     num_neighbors := num_neighbors p; material := material p |}.

Definition set_force_y (v : F) (p : Particle) : Particle :=
  {| x := x p; y := y p; old_x := old_x p; old_y := old_y p;
     vx := vx p; vy := vy p; force_x := force_x p; force_y := v;
     mass := mass p; locked := locked p; neighbors := neighbors p;
     num_neighbors := num_neighbors p; material := material p |}.

(** *** Force rules *)

(** [apply_force_cotton(p, dt)], statement by statement; [cm] is the
    content of [current_material], read through [p->material]. *)
Definition apply_force_cotton (cm : Material) (p : Particle) (dt : F) : Particle :=
  if locked p then p else
  let GRAVITY := flit 9800 10 in
  let p := set_force_x (of_int 0) p in
  let p := set_force_y (fmul GRAVITY (mass p)) p in
  let speed := fsqrt (fadd (fmul (vx p) (vx p)) (fmul (vy p) (vy p))) in
  let p :=
    if fgtb speed (of_int 0) then
      let air_force := fmul (fmul speed speed) (air_friction (deref cm (material p))) in
      let p := set_force_x (fsub (force_x p) (fmul (fdiv (vx p) speed) air_force)) p in
      set_force_y (fsub (force_y p) (fmul (fdiv (vy p) speed) air_force)) p
    else p in
  let ax := fdiv (force_x p) (mass p) in
  let ay := fdiv (force_y p) (mass p) in
  let p := set_vx (fadd (fdiv (fsub (x p) (old_x p)) dt) (fmul ax dt)) p in
  let p := set_vy (fadd (fdiv (fsub (y p) (old_y p)) dt) (fmul ay dt)) p in
  let temp_x := x p in
  let temp_y := y p in
  let p := set_x (fadd (x p) (fmul (vx p) dt)) p in
  let p := set_y (fadd (y p) (fmul (vy p) dt)) p in
  let p := set_old_x temp_x p in
  set_old_y temp_y p.

Definition apply_force_silk (cm : Material) (p : Particle) (dt : F) : Particle :=
  let p := apply_force_cotton cm p dt in
  let p := set_vx (fmul (vx p) (damping (deref cm (material p)))) p in
  set_vy (fmul (vy p) (damping (deref cm (material p)))) p.

Definition apply_force_denim (cm : Material) (p : Particle) (dt : F) : Particle :=
  let p := apply_force_cotton cm p dt in
  let p := set_vx (fmul (vx p) (fmul (damping (deref cm (material p))) (flit 9 10))) p in
  set_vy (fmul (vy p) (fmul (damping (deref cm (material p))) (flit 9 10))) p.

(** A call through a [ForceFunction] pointer. *)
Definition call_force (f : ForceFunction) (cm : Material) (p : Particle) (dt : F) : Particle :=
  match f with
  | ptr_apply_force_cotton => apply_force_cotton cm p dt
  | ptr_apply_force_silk => apply_force_silk cm p dt
  | ptr_apply_force_denim => apply_force_denim cm p dt
  end.

(** *** Constraint rules *)

(** [solve_constraint_cotton(p1, p2, rest_length)] on the two particles
    the pointers address; the pair returned is their content after the
    call. *)
Definition solve_constraint_cotton (cm : Material) (p1 p2 : Particle) (rest_length : F)
  : Particle * Particle :=
  let dx := fsub (x p2) (x p1) in
  let dy := fsub (y p2) (y p1) in
  let dist := fsqrt (fadd (fmul dx dx) (fmul dy dy)) in
  if fgtb dist (flit 1 10000) then
    let diff := fdiv (fsub dist rest_length) dist in
    let p1 :=
      if negb (locked p1) then
        let p1 := set_x (fadd (x p1) (fmul (fmul (fmul dx diff) (flit 5 10))
                                           (elasticity (deref cm (material p1))))) p1 in
        set_y (fadd (y p1) (fmul (fmul (fmul dy diff) (flit 5 10))
                                 (elasticity (deref cm (material p1))))) p1
      else p1 in
    let p2 :=
      if negb (locked p2) then
        let p2 := set_x (fsub (x p2) (fmul (fmul (fmul dx diff) (flit 5 10))
                                           (elasticity (deref cm (material p2))))) p2 in
        set_y (fsub (y p2) (fmul (fmul (fmul dy diff) (flit 5 10))
                                 (elasticity (deref cm (material p2))))) p2
      else p2 in
    (p1, p2)
  else (p1, p2).

Definition solve_constraint_silk (cm : Material) (p1 p2 : Particle) (rest_length : F)
  : Particle * Particle :=
  solve_constraint_cotton cm p1 p2 rest_length.

Definition solve_constraint_denim (cm : Material) (p1 p2 : Particle) (rest_length : F)
  : Particle * Particle :=
  solve_constraint_cotton cm p1 p2 (fmul rest_length (flit 9 10)).

(** A call through a [ConstraintFunction] pointer. *)
Definition call_solve (f : ConstraintFunction) (cm : Material) (p1 p2 : Particle)
    (rest_length : F) : Particle * Particle :=
  match f with
  | ptr_solve_constraint_cotton => solve_constraint_cotton cm p1 p2 rest_length
  | ptr_solve_constraint_silk => solve_constraint_silk cm p1 p2 rest_length
  | ptr_solve_constraint_denim => solve_constraint_denim cm p1 p2 rest_length
  end.

(** *** Globals and the locals of [main] *)

(** [mouse_x], [mouse_y] are the two fields of the [SDL_Point mouse];
    [running] and [last_time] are the locals of [main] that live
    across iterations. *)
Record State := {
  particles : list Particle;
  constraints : list Constraint;
  current_material : Material;
  mouse_x : Z;
  mouse_y : Z;
  mouse_down : bool;
  right_click : bool;
  running : bool;
  last_time : Z
}.

Definition set_particles (ps : list Particle) (s : State) : State :=
  {| particles := ps; constraints := constraints s;
     current_material := current_material s;
     mouse_x := mouse_x s; mouse_y := mouse_y s; mouse_down := mouse_down s;
     right_click := right_click s; running := running s; last_time := last_time s |}.

Definition set_constraints (cs : list Constraint) (s : State) : State :=
  {| particles := particles s; constraints := cs;
     current_material := current_material s;
     mouse_x := mouse_x s; mouse_y := mouse_y s; mouse_down := mouse_down s;
     right_click := right_click s; running := running s; last_time := last_time s |}.

Definition set_current_material (m : Material) (s : State) : State :=
  {| particles := particles s; constraints := constraints s;
     current_material := m;
     mouse_x := mouse_x s; mouse_y := mouse_y s; mouse_down := mouse_down s;
     right_click := right_click s; running := running s; last_time := last_time s |}.

Definition set_mouse (mx my : Z) (s : State) : State :=
  {| particles := particles s; constraints := constraints s;
     current_material := current_material s;
     mouse_x := mx; mouse_y := my; mouse_down := mouse_down s;
     right_click := right_click s; running := running s; last_time := last_time s |}.

Definition set_mouse_down (b : bool) (s : State) : State :=
  {| particles := particles s; constraints := constraints s;
     current_material := current_material s;
     mouse_x := mouse_x s; mouse_y := mouse_y s; mouse_down := b;
     right_click := right_click s; running := running s; last_time := last_time s |}.

Definition set_running (b : bool) (s : State) : State :=
  {| particles := particles s; constraints := constraints s;
     current_material := current_material s;
     mouse_x := mouse_x s; mouse_y := mouse_y s; mouse_down := mouse_down s;
     right_click := right_click s; running := b; last_time := last_time s |}.

Definition set_last_time (t : Z) (s : State) : State :=
  {| particles := particles s; constraints := constraints s;
     current_material := current_material s;
     mouse_x := mouse_x s; mouse_y := mouse_y s; mouse_down := mouse_down s;
     right_click := right_click s; running := running s; last_time := t |}.

(** *** Initialisation *)

(** Integer expressions of [init_particles], converted on assignment to
    [float]; [/] on [int] truncates. *)
Definition start_x : F :=
  of_int ((SCREEN_WIDTH - (Z.of_nat GRID_WIDTH - 1) * PARTICLE_SPACING) ÷ 2).
Definition start_y : F :=
  of_int ((SCREEN_HEIGHT - (Z.of_nat GRID_HEIGHT - 1) * PARTICLE_SPACING) ÷ 4).

(** The body of the inner loop of [init_particles]: every field of
    [particles[y * GRID_WIDTH + x]] is assigned. *)
Definition init_particle (cm : Material) (gy gx : nat) : Particle :=
  let px := fadd start_x (of_int (Z.of_nat gx * PARTICLE_SPACING)) in
  let py := fadd start_y (of_int (Z.of_nat gy * PARTICLE_SPACING)) in
  {| x := px; y := py; old_x := px; old_y := py;
     vx := of_int 0; vy := of_int 0;
     force_x := of_int 0; force_y := of_int 0;
     mass := m_mass cm;
     locked := Nat.eqb gy 0;
     neighbors := [];
     num_neighbors := 0;
     material := addr_current_material |}.

Definition init_particles_row (cm : Material) (ps : list Particle) (gy : nat) : list Particle :=
  fold_left (fun ps gx => <[(gy * GRID_WIDTH + gx)%nat := init_particle cm gy gx]> ps)
            (seq 0 GRID_WIDTH) ps.

Definition init_particles (s : State) : State :=
  set_particles
    (fold_left (init_particles_row (current_material s)) (seq 0 GRID_HEIGHT) (particles s))
    s.

(** [constraints[index++] = c]. *)
Definition push_constraint (c : Constraint) (st : list Constraint * nat)
  : list Constraint * nat :=
  (<[snd st := c]> (fst st), S (snd st)).

Definition init_constraints (s : State) : State :=
  let st := (constraints s, 0%nat) in
  let st :=
    fold_left (fun st gy =>
      fold_left (fun st gx =>
        push_constraint
          {| p1 := (gy * GRID_WIDTH + gx)%nat;
             p2 := (gy * GRID_WIDTH + gx + 1)%nat;
             rest_length := of_int PARTICLE_SPACING;
             strength := stiffness (current_material s) |} st)
        (seq 0 (GRID_WIDTH - 1)) st)
      (seq 0 GRID_HEIGHT) st in
  let st :=
    fold_left (fun st gy =>
      fold_left (fun st gx =>
        push_constraint
          {| p1 := (gy * GRID_WIDTH + gx)%nat;
             p2 := ((gy + 1) * GRID_WIDTH + gx)%nat;
             rest_length := of_int PARTICLE_SPACING;
             strength := stiffness (current_material s) |} st)
        (seq 0 GRID_WIDTH) st)
      (seq 0 (GRID_HEIGHT - 1)) st in
  set_constraints (fst st) s.

(** *** Pointer interaction *)

(** The snap of [handle_mouse_interaction] applied to one particle. *)
Definition mouse_snap (mx my : Z) (p : Particle) : Particle :=
  let dx := fsub (x p) (of_int mx) in
  let dy := fsub (y p) (of_int my) in
  let dist := fsqrt (fadd (fmul dx dx) (fmul dy dy)) in
  if fltb dist (flit 200 10) && negb (locked p) then
    let p := set_x (of_int mx) p in
    let p := set_y (of_int my) p in
    let p := set_old_x (of_int mx) p in
    set_old_y (of_int my) p
  else p.

Definition handle_mouse_interaction (s : State) : State :=
  if negb (mouse_down s) then s else
  set_particles
    (fold_left (fun ps i =>
       match ps !! i with
       | Some p => <[i := mouse_snap (mouse_x s) (mouse_y s) p]> ps
       | None => ps
       end) (seq 0 NUM_PARTICLES) (particles s))
    s.

(** *** The loop body of [main] *)

(** The events the loop distinguishes; mouse events carry the pointer
    coordinates, a key event its [keysym.sym]. *)
Inductive SDL_Event :=
  | SDL_QUIT
  | SDL_MOUSEBUTTONDOWN (bx by_ : Z)
  | SDL_MOUSEBUTTONUP
  | SDL_MOUSEMOTION (mx my : Z)
  | SDL_KEYDOWN (sym : Z)
  | SDL_OTHER.

(** Key codes of the SDL headers: a printable key has the code of its
    character. *)
Definition SDLK_1 : Z := 49.
Definition SDLK_2 : Z := 50.
Definition SDLK_3 : Z := 51.

Definition handle_event (s : State) (e : SDL_Event) : State :=
  match e with
  | SDL_QUIT => set_running false s
  | SDL_MOUSEBUTTONDOWN bx by_ => set_mouse bx by_ (set_mouse_down true s)
  | SDL_MOUSEBUTTONUP => set_mouse_down false s
  | SDL_MOUSEMOTION mx my => set_mouse mx my s
  | SDL_KEYDOWN sym =>
      if sym =? SDLK_1 then set_current_material COTTON s
      else if sym =? SDLK_2 then set_current_material SILK s
      else if sym =? SDLK_3 then set_current_material DENIM s
      else s
  | SDL_OTHER => s
  end.

(** [current_material.apply_force(&particles[i], dt)]. *)
Definition force_at (cm : Material) (dt : F) (ps : list Particle) (i : nat) : list Particle :=
  match ps !! i with
  | Some p => <[i := call_force (apply_force cm) cm p dt]> ps
  | None => ps
  end.

(** [current_material.solve_constraint(c->p1, c->p2, c->rest_length)]
    for [c = &constraints[i]].  The two results are stored at the two
    indices; in every constraint [init_constraints] builds these are
    distinct and inside the array. *)
Definition solve_on (cm : Material) (c : Constraint) (ps : list Particle) : list Particle :=
  match ps !! p1 c, ps !! p2 c with
  | Some a, Some b =>
      let r := call_solve (solve_constraint cm) cm a b (rest_length c) in
      <[p2 c := snd r]> (<[p1 c := fst r]> ps)
  | _, _ => ps
  end.

Definition solve_at (cm : Material) (cs : list Constraint) (ps : list Particle) (i : nat)
  : list Particle :=
  match cs !! i with
  | Some c => solve_on cm c ps
  | None => ps
  end.

(** Lines 352-364: the force loop, the pointer interaction, and the
    five constraint loops. *)
Definition physics_step (dt : F) (s : State) : State :=
  let s := set_particles
             (fold_left (force_at (current_material s) dt) (seq 0 NUM_PARTICLES) (particles s))
             s in
  let s := handle_mouse_interaction s in
  fold_left (fun s (j : nat) =>
      set_particles
        (fold_left (solve_at (current_material s) (constraints s))
                   (seq 0 NUM_CONSTRAINTS) (particles s))
        s)
    (seq 0 5) s.

(** One iteration of [while (running)]: the pending events [evs], then
    the time step from the tick counter (unsigned 32-bit subtraction),
    then the physics. *)
Definition loop_body (evs : list SDL_Event) (current_time : Z) (s : State) : State :=
  let s := fold_left handle_event evs s in
  let dt := fdiv (of_int ((current_time - last_time s) mod 2 ^ 32)) (flit 10000 10) in
  let s := set_last_time current_time s in
  physics_step dt s.

(** The loop, over the events and tick count each iteration receives. *)
Fixpoint main_loop (inputs : list (list SDL_Event * Z)) (s : State) : State :=
  match inputs with
  | [] => s
  | (evs, t) :: rest => if running s then main_loop rest (loop_body evs t s) else s
  end.

End Program.

Arguments GRID_WIDTH : simpl never.
Arguments GRID_HEIGHT : simpl never.
Arguments NUM_PARTICLES : simpl never.
Arguments NUM_CONSTRAINTS : simpl never.

Arguments Material F : clear implicits.
Arguments Particle F : clear implicits.
Arguments Constraint F : clear implicits.
Arguments State F : clear implicits.

(** ** Definitions the statements use *)

Section Statements.

Context {F : Type} `{Scalar F}.

(** *** The force rule with its divisions checked *)

(** A division that reports a zero divisor instead of dividing. *)
Definition fdiv_chk (a b : F) : option F :=
  if feqb b (of_int 0) then None else Some (fdiv a b).

(** [apply_force_cotton] with each of its six divisions replaced by
    [fdiv_chk]: [None] tells that the call divides by zero. *)
Definition apply_force_cotton_chk (cm : Material F) (p : Particle F) (dt : F)
  : option (Particle F) :=
  if locked p then Some p else
  let GRAVITY := flit 9800 10 in
  let p := set_force_x (of_int 0) p in
  let p := set_force_y (fmul GRAVITY (mass p)) p in
  let speed := fsqrt (fadd (fmul (vx p) (vx p)) (fmul (vy p) (vy p))) in
  p ← (if fgtb speed (of_int 0) then
         let air_force := fmul (fmul speed speed) (air_friction (deref cm (material p))) in
         ux ← fdiv_chk (vx p) speed;
         let p := set_force_x (fsub (force_x p) (fmul ux air_force)) p in
         uy ← fdiv_chk (vy p) speed;
         Some (set_force_y (fsub (force_y p) (fmul uy air_force)) p)
       else Some p);
  ax ← fdiv_chk (force_x p) (mass p);
  ay ← fdiv_chk (force_y p) (mass p);
  wx ← fdiv_chk (fsub (x p) (old_x p)) dt;
  let p := set_vx (fadd wx (fmul ax dt)) p in
  wy ← fdiv_chk (fsub (y p) (old_y p)) dt;
  let p := set_vy (fadd wy (fmul ay dt)) p in
  let temp_x := x p in
  let temp_y := y p in
  let p := set_x (fadd (x p) (fmul (vx p) dt)) p in
  let p := set_y (fadd (y p) (fmul (vy p) dt)) p in
  let p := set_old_x temp_x p in
  Some (set_old_y temp_y p).

(** *** The force rule as the specification words it *)

(** Force accumulator after the reset and the drag: gravity
    [(0, 980 * mass)], less the drag [speed^2 * air_friction] along
    the unit vector of the stored velocity when the speed is positive. *)
Definition spec_force (cm : Material F) (p : Particle F) : F * F :=
  let gravity := (of_int 0, fmul (flit 9800 10) (mass p)) in
  let speed := fsqrt (fadd (fmul (vx p) (vx p)) (fmul (vy p) (vy p))) in
  let drag := fmul (fmul speed speed) (air_friction (deref cm (material p))) in
  if fgtb speed (of_int 0)
  then (fsub (fst gravity) (fmul (fdiv (vx p) speed) drag),
        fsub (snd gravity) (fmul (fdiv (vy p) speed) drag))
  else gravity.

(** Velocity [(current - previous) / dt + (force / mass) * dt]. *)
Definition spec_velocity (cm : Material F) (p : Particle F) (dt : F) : F * F :=
  let f := spec_force cm p in
  (fadd (fdiv (fsub (x p) (old_x p)) dt) (fmul (fdiv (fst f) (mass p)) dt),
   fadd (fdiv (fsub (y p) (old_y p)) dt) (fmul (fdiv (snd f) (mass p)) dt)).

Definition applyForce_spec (cm : Material F) (p : Particle F) (dt : F) : Particle F :=
  let f := spec_force cm p in
  let v := spec_velocity cm p dt in
  {| x := fadd (x p) (fmul (fst v) dt);
     y := fadd (y p) (fmul (snd v) dt);
     old_x := x p; old_y := y p;
     vx := fst v; vy := snd v;
     force_x := fst f; force_y := snd f;
     mass := mass p; locked := locked p; neighbors := neighbors p;
     num_neighbors := num_neighbors p; material := material p |}.

(** *** The constraint rule as the specification words it *)

(** Distance of two particles, as both rules compute it. *)
Definition distance (a b : Particle F) : F :=
  let dx := fsub (x b) (x a) in
  let dy := fsub (y b) (y a) in
  fsqrt (fadd (fmul dx dx) (fmul dy dy)).

(** The numerical floor [0.0001f]. *)
Definition FLOOR : F := flit 1 10000.

(** An endpoint displaced by [(dx, dy) * diff * 0.5 * elasticity],
    added or subtracted. *)
Definition displaced (op : F -> F -> F) (cm : Material F) (dx dy diff : F) (p : Particle F)
  : Particle F :=
  let e := elasticity (deref cm (material p)) in
  set_y (op (y p) (fmul (fmul (fmul dy diff) (flit 5 10)) e))
    (set_x (op (x p) (fmul (fmul (fmul dx diff) (flit 5 10)) e)) p).

Definition solveConstraint_spec (cm : Material F) (a b : Particle F) (rest : F)
  : Particle F * Particle F :=
  let dx := fsub (x b) (x a) in
  let dy := fsub (y b) (y a) in
  let diff := fdiv (fsub (distance a b) rest) (distance a b) in
  if fgtb (distance a b) FLOOR
  then (if locked a then a else displaced fadd cm dx dy diff a,
        if locked b then b else displaced fsub cm dx dy diff b)
  else (a, b).

(** *** The simulation step as the specification words it *)

Definition force_pass (cm : Material F) (dt : F) (ps : list (Particle F)) : list (Particle F) :=
  map (fun p => call_force (apply_force cm) cm p dt) ps.

Definition interaction_pass (pressed : bool) (mx my : Z) (ps : list (Particle F))
  : list (Particle F) :=
  if pressed then map (mouse_snap mx my) ps else ps.

Definition relaxation_pass (cm : Material F) (cs : list (Constraint F)) (ps : list (Particle F))
  : list (Particle F) :=
  fold_left (fun ps c => solve_on cm c ps) cs ps.

Definition step_spec (dt : F) (s : State F) : State F :=
  let cm := current_material s in
  set_particles
    (Nat.iter 5 (relaxation_pass cm (constraints s))
       (interaction_pass (mouse_down s) (mouse_x s) (mouse_y s)
          (force_pass cm dt (particles s))))
    s.

(** *** One constraint relaxed alone *)

(** [n] passes of the base rule over a single constraint. *)
Definition relax_single (cm : Material F) (rest : F) (n : nat) (ab : Particle F * Particle F)
  : Particle F * Particle F :=
  Nat.iter n (fun ab => solve_constraint_cotton cm (fst ab) (snd ab) rest) ab.

(** [|a - b|]. *)
Definition absdiff (a b : F) : F := if fltb a b then fsub b a else fsub a b.

(** [d1] is strictly closer to [rest] than [d0]. *)
Definition closer (rest d1 d0 : F) : bool := fltb (absdiff d1 rest) (absdiff d0 rest).

(** The endpoint [u] is strictly on the side of the anchor [l] where
    [u0] was: the displacements [u - l] and [u0 - l] have a positive
    scalar product. *)
Definition same_side (l u0 u : Particle F) : bool :=
  fgtb (fadd (fmul (fsub (x u) (x l)) (fsub (x u0) (x l)))
             (fmul (fsub (y u) (y l)) (fsub (y u0) (y l))))
       (of_int 0).

(** *** Centring *)

(** Free space after a grid of [n] points that starts at [start] on a
    canvas of [canvas] units. *)
Definition margin_after (start : F) (n : nat) (canvas : Z) : F :=
  fsub (of_int canvas) (fadd start (of_int ((Z.of_nat n - 1) * PARTICLE_SPACING))).

(** The grid is centred on an axis when the free space before it
    equals the free space after it. *)
Definition centred (start : F) (n : nat) (canvas : Z) : Prop :=
  start = margin_after start n canvas.

(** *** Locked particles *)

(** [q] is locked, at the position and previous position of [p]. *)
Definition in_place (p q : Particle F) : Prop :=
  locked q = true /\ x q = x p /\ y q = y p /\ old_x q = old_x p /\ old_y q = old_y p.

(** [q] holds [p] in place if [p] is locked. *)
Definition keeps (p q : Particle F) : Prop := locked p = true -> in_place p q.

(** The same, for the whole array. *)
Definition held (ps qs : list (Particle F)) : Prop := Forall2 keeps ps qs.

(** *** The stretched constraint *)

(** With the anchor [l] as first endpoint and the free endpoint [u] as
    second: after five passes the distance is strictly closer to
    [rest], and after no pass has [u] gone past [l]. *)
Definition relaxes_towards_rest (cm : Material F) (l u : Particle F) (rest : F) : Prop :=
  let r := relax_single cm rest 5 (l, u) in
  closer rest (distance (fst r) (snd r)) (distance l u) = true /\
  forall k, (k <= 5)%nat ->
    fst (relax_single cm rest k (l, u)) = l /\
    same_side l u (snd (relax_single cm rest k (l, u))) = true.

(** The same with the endpoints given in the other order. *)
Definition relaxes_towards_rest_swapped (cm : Material F) (l u : Particle F) (rest : F)
  : Prop :=
  let r := relax_single cm rest 5 (u, l) in
  closer rest (distance (fst r) (snd r)) (distance u l) = true /\
  forall k, (k <= 5)%nat ->
    snd (relax_single cm rest k (u, l)) = l /\
    same_side l u (fst (relax_single cm rest k (u, l))) = true.

End Statements.

(** *** Index loops *)

Section LoopShapes.

Context {A : Type}.

(** [for (i = 0; i < n; i++) a[i] = g(a[i])]. *)
Definition update_loop (g : A -> A) (n : nat) (l : list A) : list A :=
  fold_left (fun l i => match l !! i with Some v => <[i := g v]> l | None => l end)
            (seq 0 n) l.

(** [for (x = 0; x < w; x++) a[base + x] = g(x)]. *)
Definition fill_row (g : nat -> A) (base w : nat) (l : list A) : list A :=
  fold_left (fun l gx => <[(base + gx)%nat := g gx]> l) (seq 0 w) l.

(** [for (y = 0; y < h; y++) for (x = 0; x < W; x++) a[y * W + x] = g(y, x)]. *)
Definition fill_grid (g : nat -> nat -> A) (W h : nat) (l : list A) : list A :=
  fold_left (fun l gy => fill_row (g gy) (gy * W) W l) (seq 0 h) l.

End LoopShapes.

(** *** Single precision *)

(** Two [binary32] values denote the same number: they are equal, or
    both are zeros. *)
Definition is_zero32 (a : binary32) : bool :=
  match a with S754_zero _ => true | _ => false end.

Definition same_value (a b : binary32) : Prop :=
  a = b \/ (is_zero32 a = true /\ is_zero32 b = true).

(** Two particles that agree in every field, the coordinates up to the
    sign of a zero. *)
Definition same_particle (p q : Particle binary32) : Prop :=
  same_value (x p) (x q) /\ same_value (y p) (y q) /\
  old_x p = old_x q /\ old_y p = old_y q /\ vx p = vx q /\ vy p = vy q /\
  force_x p = force_x q /\ force_y p = force_y q /\ mass p = mass q /\
  locked p = locked q /\ material p = material q.

(** Two differences taken in opposite orders. *)
Definition opposite (d d' : binary32) : Prop :=
  d' = SFopp d \/ (d = S754_zero false /\ d' = S754_zero false).

Definition zero_or_nan (t : binary32) : bool :=
  match t with S754_zero _ | S754_nan => true | _ => false end.

(** *** Concrete states *)

(** A particle at rest at [(px, py)], of cotton's mass, governed by
    [current_material]. *)
Definition particle_at (px py : binary32) (l : bool) : Particle binary32 :=
  {| x := px; y := py; old_x := px; old_y := py;
     vx := of_int 0; vy := of_int 0; force_x := of_int 0; force_y := of_int 0;
     mass := m_mass COTTON; locked := l; neighbors := []; num_neighbors := 0;
     material := addr_current_material |}.

(** The globals when [main] starts, with the arrays at their declared
    sizes and a placeholder in every slot ([init_particles] and
    [init_constraints] assign every field of every slot before it is
    read), and the state when the loop is entered, at tick count 0. *)
Definition boot_state : State binary32 :=
  {| particles := replicate NUM_PARTICLES (particle_at (of_int 0) (of_int 0) false);
     constraints :=
       replicate NUM_CONSTRAINTS
         {| p1 := 0%nat; p2 := 0%nat; rest_length := of_int 0; strength := of_int 0 |};
     current_material := COTTON;
     mouse_x := 0; mouse_y := 0; mouse_down := false; right_click := false;
     running := true; last_time := 0 |}.

Definition initial_state : State binary32 := init_constraints (init_particles boot_state).

(** *** Exact arithmetic *)

(** A particle at rest at [(px, py)], of unit mass. *)
Definition real_particle_at (px py : R) (l : bool) : Particle R :=
  {| x := px; y := py; old_x := px; old_y := py;
     vx := 0%R; vy := 0%R; force_x := 0%R; force_y := 0%R;
     mass := 1%R; locked := l; neighbors := []; num_neighbors := 0;
     material := addr_current_material |}.

(** [q] is the free endpoint [u] pulled towards the anchor [l]: its
    offset from [l] is [t] times the offset of [u]. *)
Definition on_ray (l u : Particle R) (t : R) (q : Particle R) : Prop :=
  (x q = x l + t * (x u - x l))%R /\ (y q = y l + t * (y u - y l))%R /\
  locked q = false /\ material q = material u.

(** ** The energy rules *)

Section Energy.
Context {F : Type} `{Scalar F}.

(** One iteration of the loop of [calc_energy_cotton]: the spring
    energy towards the neighbour [n] added to [spring]. *)
Definition add_spring (cm : Material F) (p : Particle F) (spring : F) (n : Particle F) : F :=
  let dx := fsub (x n) (x p) in
  let dy := fsub (y n) (y p) in
  let dist := fsqrt (fadd (fmul dx dx) (fmul dy dy)) in
  fadd spring
       (fmul (fmul (fmul (flit 5 10) (stiffness (deref cm (material p))))
                   (fsub dist (of_int PARTICLE_SPACING)))
             (fsub dist (of_int PARTICLE_SPACING))).

(** [calc_energy_cotton(p, neighbors, num_neighbors)]; [neighbors]
    holds the particles the pointers of the array address.  An index
    below [num_neighbors] but past the end of the array, which the C
    loop would read out of bounds, adds nothing here. *)
Definition calc_energy_cotton (cm : Material F) (p : Particle F)
    (neighbors : list (Particle F)) (num_neighbors : Z) : F :=
  if locked p then of_int 0 else
  let kinetic := fmul (fmul (flit 5 10) (mass p))
                      (fadd (fmul (vx p) (vx p)) (fmul (vy p) (vy p))) in
  let potential := fmul (fmul (mass p) (flit 9800 10)) (y p) in
  let spring :=
    fold_left (fun spring i =>
                 match neighbors !! i with
                 | Some n => add_spring cm p spring n
                 | None => spring
                 end)
              (seq 0 (Z.to_nat num_neighbors)) (of_int 0) in
  fadd (fadd kinetic potential) spring.

Definition calc_energy_silk (cm : Material F) (p : Particle F)
    (neighbors : list (Particle F)) (num_neighbors : Z) : F :=
  fmul (calc_energy_cotton cm p neighbors num_neighbors) (flit 8 10).

Definition calc_energy_denim (cm : Material F) (p : Particle F)
    (neighbors : list (Particle F)) (num_neighbors : Z) : F :=
  fmul (calc_energy_cotton cm p neighbors num_neighbors) (flit 12 10).

(** A call through an [EnergyFunction] pointer. *)
Definition call_energy (f : EnergyFunction) (cm : Material F) (p : Particle F)
    (neighbors : list (Particle F)) (num_neighbors : Z) : F :=
  match f with
  | ptr_calc_energy_cotton => calc_energy_cotton cm p neighbors num_neighbors
  | ptr_calc_energy_silk => calc_energy_silk cm p neighbors num_neighbors
  | ptr_calc_energy_denim => calc_energy_denim cm p neighbors num_neighbors
  end.
End Energy.

(** ** Definitions the further properties use *)

Section ConstraintShapes.
Context {F : Type} `{Scalar F}.

(** The link from grid cell [(gy, gx)] to its right neighbour, and to
    the cell below it. *)
Definition hlink (cm : Material F) (gy gx : nat) : Constraint F :=
  {| p1 := (gy * GRID_WIDTH + gx)%nat;
     p2 := (gy * GRID_WIDTH + gx + 1)%nat;
     rest_length := of_int PARTICLE_SPACING;
     strength := stiffness cm |}.

Definition vlink (cm : Material F) (gy gx : nat) : Constraint F :=
  {| p1 := (gy * GRID_WIDTH + gx)%nat;
     p2 := ((gy + 1) * GRID_WIDTH + gx)%nat;
     rest_length := of_int PARTICLE_SPACING;
     strength := stiffness cm |}.

(** The constraint joins two cells of the grid that are neighbours in
    a row or in a column. *)
Definition grid_neighbours (a b : nat) : Prop :=
  (a < NUM_PARTICLES)%nat /\ (b < NUM_PARTICLES)%nat /\
  ((b = a + 1 /\ a mod GRID_WIDTH + 1 < GRID_WIDTH) \/ b = a + GRID_WIDTH)%nat.

End ConstraintShapes.

Section PushShapes.
Context {A : Type}.
(** [for (y...) for (x = 0; x < w; x++) a[index++] = g(y, x)], from
    [index = n]. *)
Definition push_grid (g : nat -> nat -> A) (w h : nat) (st : list A * nat) : list A * nat :=
  fold_left (fun st gy =>
    fold_left (fun st gx => (<[snd st := g gy gx]> (fst st), S (snd st))) (seq 0 w) st)
    (seq 0 h) st.
End PushShapes.

Section MoreStatements.
Context {F : Type} `{Scalar F}.

(** [q] is [p] but for position, previous position, velocity and
    force: the fields no rule assigns are equal. *)
Definition same_identity (p q : Particle F) : Prop :=
  mass q = mass p /\ locked q = locked p /\ material q = material p /\
  neighbors q = neighbors p /\ num_neighbors q = num_neighbors p.

(** The material a key event selects, if it selects one. *)
Definition key_material (e : SDL_Event) : option (Material F) :=
  match e with
  | SDL_KEYDOWN sym =>
      if sym =? SDLK_1 then Some COTTON
      else if sym =? SDLK_2 then Some SILK
      else if sym =? SDLK_3 then Some DENIM
      else None
  | _ => None
  end.

(** The time step [loop_body] computes from two tick counts. *)
Definition frame_dt (last_time current_time : Z) : F :=
  fdiv (of_int ((current_time - last_time) mod 2 ^ 32)) (flit 10000 10).
End MoreStatements.

Section VelocityStatements.
Context {F : Type} `{Scalar F}.

(** [p] and [q] agree in every field but the stored velocity. *)
Definition alike (p q : Particle F) : Prop :=
  x p = x q /\ y p = y q /\ old_x p = old_x q /\ old_y p = old_y q /\
  force_x p = force_x q /\ force_y p = force_y q /\ mass p = mass q /\
  locked p = locked q /\ neighbors p = neighbors q /\
  num_neighbors p = num_neighbors q /\ material p = material q.

(** [m] with another force rule. *)
Definition set_apply_force (f : ForceFunction) (m : Material F) : Material F :=
  {| elasticity := elasticity m; m_mass := m_mass m; stiffness := stiffness m;
     damping := damping m; tear_distance := tear_distance m;
     air_friction := air_friction m; bend_stiffness := bend_stiffness m;
     apply_force := f; calc_energy := calc_energy m;
     solve_constraint := solve_constraint m |}.
End VelocityStatements.

Definition is_nan32 (a : binary32) : bool :=
  match a with S754_nan => true | _ => false end.

(** A coordinate that is not a number in [p] is not a number in [q]. *)
Definition nan_stays (p q : Particle binary32) : Prop :=
  (is_nan32 (x p) = true -> is_nan32 (x q) = true) /\
  (is_nan32 (y p) = true -> is_nan32 (y q) = true).

(** Zero, or positive (finite or infinite): not negative and not NaN. *)
Definition nonneg32 (a : binary32) : bool :=
  match a with
  | S754_zero _ => true
  | S754_infinity s => negb s
  | S754_finite s _ _ => negb s
  | S754_nan => false
  end.

(** Zero or finite: neither infinite nor NaN. *)
Definition regular32 (a : binary32) : bool :=
  match a with S754_zero _ | S754_finite _ _ _ => true | _ => false end.

Definition is_finite32 (a : binary32) : bool :=
  match a with S754_finite _ _ _ => true | _ => false end.

(** Equality of two [binary32] values, decided. *)
Definition binary32_eqb (a b : binary32) : bool :=
  match a, b with
  | S754_zero s, S754_zero s' => Bool.eqb s s'
  | S754_infinity s, S754_infinity s' => Bool.eqb s s'
  | S754_nan, S754_nan => true
  | S754_finite s m e, S754_finite s' m' e' => Bool.eqb s s' && Pos.eqb m m' && Z.eqb e e'
  | _, _ => false
  end.

(** Two neighbours of the top row with the first moved to NaN. *)
Definition lost_state : State binary32 :=
  set_particles [particle_at S754_nan (of_int 41) false;
                 particle_at (of_int 47) (of_int 41) false] boot_state.

(** ** Locked particles stay where they are *)

Section Locked.

Context {F : Type} `{Scalar F}.

#[local] Instance keeps_preorder : PreOrder (@keeps F).
Proof.
  split.
  - intros p Hp. unfold in_place. auto.
  - intros p q r Hpq Hqr Hp. unfold in_place.
    destruct (Hpq Hp) as (Hl & Hx & Hy & Hox & Hoy).
    destruct (Hqr Hl) as (Hl' & Hx' & Hy' & Hox' & Hoy').
    repeat split; congruence.
Qed.

(** Assignments to the velocity leave lock flag and positions alone. *)
Lemma keeps_set_vx v (p : Particle F) : keeps p (set_vx v p).
Proof. intros Hp. unfold in_place. simpl. auto. Qed.

Lemma keeps_set_vy v (p : Particle F) : keeps p (set_vy v p).
Proof. intros Hp. unfold in_place. simpl. auto. Qed.

Lemma apply_force_cotton_locked cm (p : Particle F) dt :
  locked p = true -> apply_force_cotton cm p dt = p.
Proof. intros Hp. unfold apply_force_cotton. now rewrite Hp. Qed.

Lemma call_force_keeps f cm (p : Particle F) dt : keeps p (call_force f cm p dt).
Proof.
  assert (Hc : keeps p (apply_force_cotton cm p dt)).
  { intros Hp. rewrite apply_force_cotton_locked by assumption. now apply keeps_preorder. }
  destruct f; simpl; [assumption | |];
    (etransitivity; [exact Hc |]; etransitivity; [apply keeps_set_vx | apply keeps_set_vy]).
Qed.

Lemma solve_constraint_cotton_locked_fst cm (a b : Particle F) r :
  locked a = true -> fst (solve_constraint_cotton cm a b r) = a.
Proof.
  intros Ha. unfold solve_constraint_cotton. rewrite Ha.
  destruct (fgtb _ _); reflexivity.
Qed.

Lemma solve_constraint_cotton_locked_snd cm (a b : Particle F) r :
  locked b = true -> snd (solve_constraint_cotton cm a b r) = b.
Proof.
  intros Hb. unfold solve_constraint_cotton. rewrite Hb.
  destruct (fgtb _ _); reflexivity.
Qed.

Lemma call_solve_locked_fst f cm (a b : Particle F) r :
  locked a = true -> fst (call_solve f cm a b r) = a.
Proof. intros Ha. destruct f; simpl; now apply solve_constraint_cotton_locked_fst. Qed.

Lemma call_solve_locked_snd f cm (a b : Particle F) r :
  locked b = true -> snd (call_solve f cm a b r) = b.
Proof. intros Hb. destruct f; simpl; now apply solve_constraint_cotton_locked_snd. Qed.

Lemma call_solve_lock_flag f cm (a b : Particle F) r :
  locked (fst (call_solve f cm a b r)) = locked a.
Proof.
  destruct f; simpl;
    unfold solve_constraint_silk, solve_constraint_denim, solve_constraint_cotton;
    destruct (fgtb _ _); simpl; try reflexivity;
    destruct (locked a) eqn:Ha; simpl; auto.
Qed.

Lemma mouse_snap_locked mx my (p : Particle F) :
  locked p = true -> mouse_snap mx my p = p.
Proof.
  intros Hp. unfold mouse_snap. rewrite Hp, andb_false_r. reflexivity.
Qed.

#[local] Instance held_preorder : PreOrder (@held F).
Proof.
  split.
  - intros ps. apply Forall2_same_length_lookup_2; [reflexivity |].
    intros i p q Hp Hq. assert (p = q) by congruence. subst q. reflexivity.
  - intros ps qs rs Hpq Hqr.
    eapply Forall2_trans; [| exact Hpq | exact Hqr].
    intros p q r Hp Hq. etransitivity; eassumption.
Qed.

Lemma held_insert (ps : list (Particle F)) i p q :
  ps !! i = Some p -> keeps p q -> held ps (<[i := q]> ps).
Proof.
  intros Hi Hpq. unfold held.
  rewrite <- (list_insert_id ps i p Hi) at 1.
  apply Forall2_insert; [reflexivity | exact Hpq].
Qed.

Lemma held_fold {A} (f : list (Particle F) -> A -> list (Particle F)) (l : list A) :
  (forall ps a, held ps (f ps a)) -> forall ps, held ps (fold_left f l ps).
Proof.
  intros Hf. induction l as [| a l IH]; intros ps; simpl.
  - reflexivity.
  - etransitivity; [apply Hf | apply IH].
Qed.

Lemma force_at_held cm dt (ps : list (Particle F)) i : held ps (force_at cm dt ps i).
Proof.
  unfold force_at. destruct (ps !! i) as [p |] eqn:Hi; [| reflexivity].
  eapply held_insert; [exact Hi | apply call_force_keeps].
Qed.

Lemma solve_on_held cm c (ps : list (Particle F)) : held ps (solve_on cm c ps).
Proof.
  unfold solve_on.
  destruct (ps !! p1 c) as [a |] eqn:Ha; [| reflexivity].
  destruct (ps !! p2 c) as [b |] eqn:Hb; [| reflexivity].
  set (r := call_solve _ _ _ _ _).
  assert (Hka : keeps a (fst r)).
  { intros Hl. unfold r. rewrite call_solve_locked_fst by assumption.
    now apply keeps_preorder. }
  assert (Hkb : keeps b (snd r)).
  { intros Hl. unfold r. rewrite call_solve_locked_snd by assumption.
    now apply keeps_preorder. }
  assert (H1 : held ps (<[p1 c := fst r]> ps)) by (eapply held_insert; eauto).
  unfold held in *.
  destruct (Forall2_lookup_l _ _ _ _ _ H1 Hb) as (b' & Hb' & Hbb').
  etransitivity; [exact H1 |].
  eapply held_insert; [exact Hb' |].
  destruct (decide (p1 c = p2 c)) as [He | Hne].
  - (* both pointers address one particle: the second store wins *)
    rewrite He in Hb'.
    rewrite list_lookup_insert_eq in Hb' by (eapply lookup_lt_Some; exact Hb).
    assert (Hab : a = b) by (rewrite He in Ha; congruence).
    subst a. injection Hb' as <-.
    intros Hl'. unfold r in Hl'. rewrite call_solve_lock_flag in Hl'.
    unfold r. rewrite call_solve_locked_fst, call_solve_locked_snd by assumption.
    unfold in_place. auto.
  - rewrite list_lookup_insert_ne in Hb' by assumption.
    assert (b' = b) by congruence. subst b'. exact Hkb.
Qed.

Lemma solve_at_held cm cs (ps : list (Particle F)) i : held ps (solve_at cm cs ps i).
Proof.
  unfold solve_at. destruct (cs !! i); [apply solve_on_held | reflexivity].
Qed.

Lemma handle_mouse_interaction_held (s : State F) :
  held (particles s) (particles (handle_mouse_interaction s)).
Proof.
  unfold handle_mouse_interaction.
  destruct (mouse_down s); cbn [negb particles set_particles]; [| reflexivity].
  apply held_fold. intros ps i.
  destruct (ps !! i) as [p |] eqn:Hi; [| reflexivity].
  eapply held_insert; [exact Hi |].
  intros Hp. rewrite mouse_snap_locked by assumption. now apply keeps_preorder.
Qed.

Lemma physics_step_held dt (s : State F) :
  held (particles s) (particles (physics_step dt s)).
Proof.
  unfold physics_step.
  set (s1 := set_particles _ s).
  assert (H1 : held (particles s) (particles s1)).
  { unfold s1. cbn [particles set_particles]. apply held_fold.
    intros; apply force_at_held. }
  set (s2 := handle_mouse_interaction s1).
  assert (H2 : held (particles s1) (particles s2)) by apply handle_mouse_interaction_held.
  etransitivity; [exact H1 |]. etransitivity; [exact H2 |].
  generalize (seq 0 5) s2. clear.
  intros l. induction l as [| j l IH]; intros s; cbn [fold_left]; [reflexivity |].
  etransitivity; [| apply IH]. cbn [particles set_particles].
  apply held_fold. intros; apply solve_at_held.
Qed.

Lemma handle_event_particles (s : State F) e :
  particles (handle_event s e) = particles s.
Proof.
  destruct e; simpl; try reflexivity.
  repeat (destruct (_ =? _); [reflexivity |]). reflexivity.
Qed.

Lemma handle_events_particles evs (s : State F) :
  particles (fold_left handle_event evs s) = particles s.
Proof.
  revert s. induction evs as [| e evs IH]; intros s; simpl; [reflexivity |].
  rewrite IH. apply handle_event_particles.
Qed.

Lemma loop_body_held evs t (s : State F) :
  held (particles s) (particles (loop_body evs t s)).
Proof.
  unfold loop_body.
  etransitivity; [| apply physics_step_held].
  cbn [particles set_last_time]. rewrite handle_events_particles. reflexivity.
Qed.

Lemma main_loop_held inputs (s : State F) :
  held (particles s) (particles (main_loop inputs s)).
Proof.
  revert s. induction inputs as [| [evs t] inputs IH]; intros s; simpl; [reflexivity |].
  destruct (running s); [| reflexivity].
  etransitivity; [apply loop_body_held | apply IH].
Qed.

(** Any number of physics steps alone, with any time deltas. *)
Lemma physics_steps_held dts (s : State F) :
  held (particles s) (particles (fold_left (fun s dt => physics_step dt s) dts s)).
Proof.
  revert s. induction dts as [| dt dts IH]; intros s; simpl; [reflexivity |].
  etransitivity; [apply physics_step_held | apply IH].
Qed.

End Locked.

(** ** The rules against their specification *)

Section Rules.

Context {F : Type} `{Scalar F}.

Lemma apply_force_cotton_unlocked cm (p : Particle F) dt :
  locked p = false -> apply_force_cotton cm p dt = applyForce_spec cm p dt.
Proof.
  intros Hp.
  unfold apply_force_cotton. rewrite Hp.
  unfold applyForce_spec, spec_velocity, spec_force.
  cbn [set_force_x set_force_y vx vy mass material force_x force_y].
  destruct (fgtb _ _); reflexivity.
Qed.

Lemma solve_constraint_cotton_spec cm (a b : Particle F) rest :
  solve_constraint_cotton cm a b rest = solveConstraint_spec cm a b rest.
Proof.
  unfold solve_constraint_cotton, solveConstraint_spec, displaced, distance, FLOOR.
  destruct (fgtb _ _); [| reflexivity].
  destruct (locked a), (locked b); reflexivity.
Qed.

End Rules.

(** ** Index loops over the arrays *)

Section Loops.

Context {A B : Type}.

Lemma update_loop_S (g : A -> A) (n : nat) (l : list A) :
  update_loop g (S n) l
  = match update_loop g n l !! n with
    | Some v => <[n := g v]> (update_loop g n l)
    | None => update_loop g n l
    end.
Proof. unfold update_loop. now rewrite seq_S, fold_left_app. Qed.

Lemma update_loop_ge (g : A -> A) (n : nat) (l : list A) (k : nat) :
  (n <= k)%nat -> update_loop g n l !! k = l !! k.
Proof.
  induction n as [| n IH]; intros Hk; [reflexivity |].
  rewrite update_loop_S.
  destruct (update_loop g n l !! n).
  - rewrite list_lookup_insert_ne by lia. apply IH. lia.
  - apply IH. lia.
Qed.

Lemma lookup_update_loop (g : A -> A) (n : nat) (l : list A) (i : nat) :
  update_loop g n l !! i = if (i <? n)%nat then g <$> l !! i else l !! i.
Proof.
  induction n as [| n IH]; [reflexivity |].
  rewrite update_loop_S.
  pose proof (update_loop_ge g n l n (le_n n)) as Hn.
  destruct (update_loop g n l !! n) as [v |] eqn:Hv.
  - destruct (decide (i = n)) as [-> | Hne].
    + rewrite list_lookup_insert_eq by (eapply lookup_lt_Some; exact Hv).
      rewrite <- Hn.
      replace (n <? S n)%nat with true by (symmetry; apply Nat.ltb_lt; lia).
      reflexivity.
    + rewrite list_lookup_insert_ne by auto. rewrite IH.
      destruct (Nat.ltb_spec i n), (Nat.ltb_spec i (S n)); try reflexivity; lia.
  - rewrite IH.
    destruct (Nat.ltb_spec i n), (Nat.ltb_spec i (S n)); try reflexivity; try lia.
    assert (i = n) by lia. subst i. now rewrite <- Hn.
Qed.

Lemma update_loop_map (g : A -> A) (l : list A) :
  update_loop g (length l) l = map g l.
Proof.
  apply list_eq. intros i. rewrite lookup_update_loop.
  change (map g l) with (g <$> l). rewrite list_lookup_fmap.
  destruct (Nat.ltb_spec i (length l)) as [Hlt | Hge]; [reflexivity |].
  now rewrite lookup_ge_None_2.
Qed.

(** [for (i = 0; i < n; i++) f(acc, c[i])] visits the elements of
    [c] once each, in the order they are stored. *)
Lemma index_loop_fold (f : B -> A -> B) (pre cs : list A) (acc : B) :
  fold_left (fun acc i => match (pre ++ cs) !! i with Some c => f acc c | None => acc end)
            (seq (length pre) (length cs)) acc
  = fold_left f cs acc.
Proof.
  revert pre acc. induction cs as [| c cs IH]; intros pre acc; [reflexivity |].
  cbn [length seq fold_left].
  rewrite list_lookup_middle by reflexivity.
  specialize (IH (pre ++ [c]) (f acc c)).
  rewrite <- app_assoc, length_app in IH. cbn [app length] in IH.
  rewrite Nat.add_1_r in IH. exact IH.
Qed.

End Loops.

Section Step.

Context {F : Type} `{Scalar F}.

Lemma force_loop_pass cm dt (ps : list (Particle F)) :
  fold_left (force_at cm dt) (seq 0 (length ps)) ps = force_pass cm dt ps.
Proof. apply (update_loop_map (fun p => call_force (apply_force cm) cm p dt)). Qed.

Lemma handle_mouse_interaction_pass (s : State F) :
  length (particles s) = NUM_PARTICLES ->
  handle_mouse_interaction s
  = set_particles (interaction_pass (mouse_down s) (mouse_x s) (mouse_y s) (particles s)) s.
Proof.
  intros Hlen. unfold handle_mouse_interaction, interaction_pass.
  destruct (mouse_down s); cbn [negb].
  - rewrite <- Hlen. f_equal. apply update_loop_map.
  - destruct s; reflexivity.
Qed.

Lemma constraint_loop_pass cm (cs : list (Constraint F)) (ps : list (Particle F)) :
  fold_left (solve_at cm cs) (seq 0 (length cs)) ps = relaxation_pass cm cs ps.
Proof.
  unfold relaxation_pass.
  rewrite <- (index_loop_fold (fun ps c => solve_on cm c ps) [] cs ps).
  reflexivity.
Qed.

Lemma physics_step_spec dt (s : State F) :
  length (particles s) = NUM_PARTICLES ->
  length (constraints s) = NUM_CONSTRAINTS ->
  physics_step dt s = step_spec dt s.
Proof.
  intros Hp Hc. unfold physics_step, step_spec.
  rewrite <- Hp at 1. rewrite force_loop_pass.
  rewrite handle_mouse_interaction_pass
    by (cbn [particles set_particles]; unfold force_pass; now rewrite length_map).
  cbn [seq fold_left particles constraints current_material set_particles
       mouse_down mouse_x mouse_y].
  rewrite <- Hc, !constraint_loop_pass.
  reflexivity.
Qed.

End Step.

(** ** Initialisation of the grid *)

Section Fill.

Context {A : Type}.

Lemma length_fill_row g base w (l : list A) : length (fill_row g base w l) = length l.
Proof.
  unfold fill_row. induction w as [| w IH]; [reflexivity |].
  rewrite seq_S, fold_left_app. cbn [fold_left]. now rewrite length_insert.
Qed.

Lemma length_fill_grid g W h (l : list A) : length (fill_grid g W h l) = length l.
Proof.
  unfold fill_grid. induction h as [| h IH]; [reflexivity |].
  rewrite seq_S, fold_left_app. cbn [fold_left]. now rewrite length_fill_row.
Qed.

Lemma lookup_fill_row_in g base w (l : list A) k :
  (k < w)%nat -> (base + k < length l)%nat ->
  fill_row g base w l !! (base + k)%nat = Some (g k).
Proof.
  unfold fill_row. induction w as [| w IH]; intros Hk Hl; [lia |].
  rewrite seq_S, fold_left_app. cbn [fold_left Nat.add].
  destruct (decide (k = w)) as [-> | Hne].
  - apply list_lookup_insert_eq. fold (fill_row g base w l).
    now rewrite length_fill_row.
  - rewrite list_lookup_insert_ne by lia. apply IH; lia.
Qed.

Lemma lookup_fill_row_out g base w (l : list A) i :
  (i < base \/ base + w <= i)%nat -> fill_row g base w l !! i = l !! i.
Proof.
  unfold fill_row. induction w as [| w IH]; intros Hi; [reflexivity |].
  rewrite seq_S, fold_left_app. cbn [fold_left Nat.add].
  rewrite list_lookup_insert_ne by lia. apply IH. lia.
Qed.

Lemma lookup_fill_grid g W h (l : list A) r c :
  (r < h)%nat -> (c < W)%nat -> (r * W + c < length l)%nat ->
  fill_grid g W h l !! (r * W + c)%nat = Some (g r c).
Proof.
  unfold fill_grid. induction h as [| h IH]; intros Hr Hc Hl; [lia |].
  rewrite seq_S, fold_left_app. cbn [fold_left Nat.add].
  fold (fill_grid g W h l).
  destruct (decide (r = h)) as [-> | Hne].
  - apply lookup_fill_row_in; [assumption |]. now rewrite length_fill_grid.
  - rewrite lookup_fill_row_out by nia. apply IH; lia.
Qed.

End Fill.

Section Init.

Context {F : Type} `{Scalar F}.

Lemma particles_init_particles (s : State F) :
  particles (init_particles s)
  = fill_grid (init_particle (current_material s)) GRID_WIDTH GRID_HEIGHT (particles s).
Proof. reflexivity. Qed.

Lemma length_init_particles (s : State F) :
  length (particles (init_particles s)) = length (particles s).
Proof. rewrite particles_init_particles. apply length_fill_grid. Qed.

Lemma lookup_init_particles (s : State F) row col :
  length (particles s) = NUM_PARTICLES ->
  (row < GRID_HEIGHT)%nat -> (col < GRID_WIDTH)%nat ->
  particles (init_particles s) !! (row * GRID_WIDTH + col)%nat
  = Some (init_particle (current_material s) row col).
Proof.
  intros Hlen Hr Hc. rewrite particles_init_particles.
  apply lookup_fill_grid; try assumption.
  rewrite Hlen. unfold NUM_PARTICLES. nia.
Qed.

Lemma start_x_value : @start_x F _ = of_int 32.
Proof. reflexivity. Qed.

Lemma start_y_value : @start_y F _ = of_int 41.
Proof. reflexivity. Qed.

End Init.

(** ** Sign symmetry of the single-precision operations *)

Section SignSymmetry.
Variables prec emax : Z.

Lemma binary_round_aux_opp s m e l :
  SFopp (binary_round_aux prec emax s m e l) = binary_round_aux prec emax (negb s) m e l.
Proof.
  unfold binary_round_aux.
  destruct (shr_fexp prec emax m e l) as [mrs e'].
  destruct (shr_fexp prec emax _ e' loc_Exact) as [mrs' e''].
  destruct (shr_m mrs'); [reflexivity | | reflexivity].
  destruct (e'' <=? emax - prec); reflexivity.
Qed.

Lemma binary_round_opp s m e :
  SFopp (binary_round prec emax s m e) = binary_round prec emax (negb s) m e.
Proof.
  unfold binary_round. destruct (shl_align _ _ _) as [mz ez]. apply binary_round_aux_opp.
Qed.

Lemma binary_normalize_opp m e :
  m <> 0 ->
  SFopp (binary_normalize prec emax m e false) = binary_normalize prec emax (- m) e false.
Proof.
  intros Hm. destruct m; [congruence | |]; simpl; apply binary_round_opp.
Qed.

Lemma SFmul_opp_l a b :
  SFmul prec emax (SFopp a) b = SFopp (SFmul prec emax a b).
Proof.
  destruct a as [sa | sa | | sa ma ea], b as [sb | sb | | sb mb eb]; simpl;
    try reflexivity; try (now destruct sa, sb).
  rewrite binary_round_aux_opp. now destruct sa, sb.
Qed.

Lemma SFmul_opp_opp a :
  SFmul prec emax (SFopp a) (SFopp a) = SFmul prec emax a a.
Proof.
  destruct a as [sa | sa | | sa ma ea]; simpl; try reflexivity; now destruct sa.
Qed.

Lemma SFsub_opp_r a b :
  SFsub prec emax a (SFopp b) = SFadd prec emax a b.
Proof.
  destruct a as [sa | sa | | sa ma ea], b as [sb | sb | | sb mb eb]; simpl;
    try reflexivity; try (now destruct sa, sb); try (now destruct sb).
Qed.

Lemma SFsub_antisym a b :
  SFsub prec emax b a = SFopp (SFsub prec emax a b)
  \/ (SFsub prec emax a b = S754_zero false /\ SFsub prec emax b a = S754_zero false).
Proof.
  destruct a as [sa | sa | | sa ma ea], b as [sb | sb | | sb mb eb]; simpl;
    try (left; reflexivity); try (now destruct sa, sb; auto);
    try (now destruct sa; auto); try (now destruct sb; auto).
  rewrite (Z.min_comm eb ea).
  set (ez := Z.min ea eb).
  set (A := cond_Zopp sa (Zpos (fst (shl_align ma ea ez)))).
  set (B := cond_Zopp sb (Zpos (fst (shl_align mb eb ez)))).
  destruct (Z.eq_dec (A - B) 0) as [Hz | Hnz].
  - right. replace (B - A) with 0 by lia. rewrite Hz. auto.
  - left. rewrite binary_normalize_opp by assumption. f_equal. lia.
Qed.
End SignSymmetry.


Section Symmetry.

Notation "a ⊕ b" := (SFadd prec32 emax32 a b) (at level 50, left associativity).
Notation "a ⊖ b" := (SFsub prec32 emax32 a b) (at level 50, left associativity).
Notation "a ⊗ b" := (SFmul prec32 emax32 a b) (at level 40, left associativity).

Lemma opposite_sub (u v : binary32) : opposite (v ⊖ u) (u ⊖ v).
Proof.
  unfold opposite. destruct (SFsub_antisym prec32 emax32 v u) as [-> | [-> ->]]; auto.
Qed.

Lemma SFopp_involutive (a : binary32) : SFopp (SFopp a) = a.
Proof. destruct a; simpl; rewrite ?negb_involutive; reflexivity. Qed.

Lemma opposite_sym d d' : opposite d d' -> opposite d' d.
Proof.
  intros [-> | [-> ->]]; [left | right; auto]. now rewrite SFopp_involutive.
Qed.

Lemma opposite_square d d' : opposite d d' -> d' ⊗ d' = d ⊗ d.
Proof. intros [-> | [-> ->]]; [apply SFmul_opp_opp | reflexivity]. Qed.

Lemma same_value_refl a : same_value a a.
Proof. now left. Qed.

Lemma same_value_sym a b : same_value a b -> same_value b a.
Proof. intros [-> | [Ha Hb]]; [now left | right; auto]. Qed.

Lemma zero_or_nan_mul t k : zero_or_nan t = true -> zero_or_nan (t ⊗ k) = true.
Proof. destruct t, k; simpl; congruence. Qed.

Lemma add_sub_zero_or_nan u t :
  zero_or_nan t = true -> same_value (u ⊕ t) (u ⊖ t).
Proof.
  destruct t as [st | | |]; simpl; try discriminate; intros _.
  - destruct u as [su | | |]; try (left; reflexivity).
    right. destruct su, st; auto.
  - left. now destruct u.
Qed.

Lemma coordinate_symmetric u d d' k h e :
  opposite d d' ->
  same_value (u ⊕ (d ⊗ k ⊗ h ⊗ e)) (u ⊖ (d' ⊗ k ⊗ h ⊗ e)).
Proof.
  intros [-> | [-> ->]].
  - rewrite !SFmul_opp_l, SFsub_opp_r. apply same_value_refl.
  - apply add_sub_zero_or_nan. do 3 apply zero_or_nan_mul. reflexivity.
Qed.

Lemma same_particle_refl p : same_particle p p.
Proof. unfold same_particle. repeat split; apply same_value_refl. Qed.

Lemma solve_constraint_cotton_swap (cm : Material binary32) (a b : Particle binary32) (rest : binary32) :
  same_particle (fst (solve_constraint_cotton cm a b rest))
                (snd (solve_constraint_cotton cm b a rest)) /\
  same_particle (snd (solve_constraint_cotton cm a b rest))
                (fst (solve_constraint_cotton cm b a rest)).
Proof.
  unfold solve_constraint_cotton.
  pose proof (opposite_sub (x a) (x b)) as Hx.
  pose proof (opposite_sub (y a) (y b)) as Hy.
  cbn [fsub fmul fadd fsqrt fdiv binary32_scalar] in *.
  set (dx := x b ⊖ x a) in *. set (dx' := x a ⊖ x b) in *.
  set (dy := y b ⊖ y a) in *. set (dy' := y a ⊖ y b) in *.
  rewrite (opposite_square _ _ Hx), (opposite_square _ _ Hy).
  destruct (fgtb _ _); [| split; apply same_particle_refl].
  cbn [fst snd].
  split.
  - destruct (locked a); cbn [negb]; [apply same_particle_refl |].
    unfold same_particle; cbn. repeat split; try reflexivity.
    + now apply coordinate_symmetric.
    + now apply coordinate_symmetric.
  - destruct (locked b); cbn [negb]; [apply same_particle_refl |].
    unfold same_particle; cbn. repeat split; try reflexivity.
    + apply same_value_sym, coordinate_symmetric. now apply opposite_sym.
    + apply same_value_sym, coordinate_symmetric. now apply opposite_sym.
Qed.
End Symmetry.

(** ** One stretched constraint in exact arithmetic *)

Section Exact.
Open Scope R_scope.

Lemma Rltb_lt a b : Rltb a b = true <-> a < b.
Proof. unfold Rltb. destruct (Rlt_dec a b); split; auto; discriminate. Qed.

Lemma Rltb_ge a b : Rltb a b = false <-> b <= a.
Proof. unfold Rltb. destruct (Rlt_dec a b); split; try discriminate; auto; lra. Qed.

Lemma FLOOR_real : @FLOOR R _ = 1 / 10000.
Proof. reflexivity. Qed.

Lemma elasticity_COTTON_real : elasticity (@COTTON R _) = 3 / 10.
Proof. reflexivity. Qed.

(** Length of a vector scaled by [t >= 0]. *)
Lemma sqrt_scaled t X Y :
  0 <= t -> sqrt (t * X * (t * X) + t * Y * (t * Y)) = t * sqrt (X * X + Y * Y).
Proof.
  intros Ht.
  replace (t * X * (t * X) + t * Y * (t * Y)) with (t * t * (X * X + Y * Y)) by ring.
  rewrite sqrt_mult by nra. now rewrite sqrt_square.
Qed.

Lemma distance_on_ray_r l u t q :
  0 <= t -> on_ray l u t q -> distance l q = t * distance l u.
Proof.
  intros Ht (Hx & Hy & _). unfold distance. cbn [fsub fmul fadd fsqrt real_scalar].
  rewrite Hx, Hy.
  replace (x l + t * (x u - x l) - x l) with (t * (x u - x l)) by ring.
  replace (y l + t * (y u - y l) - y l) with (t * (y u - y l)) by ring.
  now apply sqrt_scaled.
Qed.

Lemma distance_sym (a b : Particle R) : distance a b = distance b a.
Proof.
  unfold distance. cbn [fsub fmul fadd fsqrt real_scalar]. f_equal. ring.
Qed.


Lemma on_ray_start (l u : Particle R) : locked u = false -> on_ray l u 1 u.
Proof. intros Hu. unfold on_ray. repeat split; try assumption; ring. Qed.

(** One pass with the anchor as first endpoint. *)
Lemma pass_anchor_first cm (l u q : Particle R) rest t :
  locked l = true ->
  elasticity (deref cm (material u)) = 3 / 10 ->
  distance l u = 2 * rest -> 0 < rest ->
  on_ray l u t q -> 1 / 2 < t <= 1 ->
  exists t' q',
    solve_constraint_cotton cm l q rest = (l, q') /\ on_ray l u t' q' /\
    1 / 2 < t' <= t /\ (1 / 10000 < t * distance l u -> t' < t).
Proof.
  intros Hl He HD Hrest Hray Ht.
  pose proof (distance_on_ray_r l u t q ltac:(lra) Hray) as Hdist.
  destruct Hray as (Hx & Hy & Hlq & Hmq).
  unfold solve_constraint_cotton. fold (distance l q).
  rewrite Hl, Hlq, Hmq, He, Hdist, HD. cbn [negb].
  change (@flit R _ 1 10000) with (1 / 10000).
  change (@flit R _ 5 10) with (5 / 10).
  unfold fgtb. cbn [fltb fsub fmul fadd fdiv real_scalar].
  destruct (Rltb (1 / 10000) (t * (2 * rest))) eqn:Hfl.
  - apply Rltb_lt in Hfl.
    exists (17 / 20 * t + 3 / 40). eexists. split; [reflexivity |].
    split; [| lra].
    unfold on_ray. cbn. rewrite Hmq, He, Hx, Hy.
    split; [field; lra |]. split; [field; lra |]. auto.
  - apply Rltb_ge in Hfl. exists t, q. split; [reflexivity |].
    split; [unfold on_ray; auto |]. lra.
Qed.

(** One pass with the anchor as second endpoint. *)
Lemma pass_anchor_second cm (l u q : Particle R) rest t :
  locked l = true ->
  elasticity (deref cm (material u)) = 3 / 10 ->
  distance l u = 2 * rest -> 0 < rest ->
  on_ray l u t q -> 1 / 2 < t <= 1 ->
  exists t' q',
    solve_constraint_cotton cm q l rest = (q', l) /\ on_ray l u t' q' /\
    1 / 2 < t' <= t /\ (1 / 10000 < t * distance l u -> t' < t).
Proof.
  intros Hl He HD Hrest Hray Ht.
  pose proof (distance_on_ray_r l u t q ltac:(lra) Hray) as Hdist.
  rewrite distance_sym in Hdist.
  destruct Hray as (Hx & Hy & Hlq & Hmq).
  unfold solve_constraint_cotton. fold (distance q l).
  rewrite Hl, Hlq, Hmq, He, Hdist, HD. cbn [negb].
  change (@flit R _ 1 10000) with (1 / 10000).
  change (@flit R _ 5 10) with (5 / 10).
  unfold fgtb. cbn [fltb fsub fmul fadd fdiv real_scalar].
  destruct (Rltb (1 / 10000) (t * (2 * rest))) eqn:Hfl.
  - apply Rltb_lt in Hfl.
    exists (17 / 20 * t + 3 / 40). eexists. split; [reflexivity |].
    split; [| lra].
    unfold on_ray. cbn. rewrite Hmq, He, Hx, Hy.
    split; [field; lra |]. split; [field; lra |]. auto.
  - apply Rltb_ge in Hfl. exists t, q. split; [reflexivity |].
    split; [unfold on_ray; auto |]. lra.
Qed.

Lemma relax_single_S cm rest k (ab : Particle R * Particle R) :
  relax_single cm rest (S k) ab
  = solve_constraint_cotton cm (fst (relax_single cm rest k ab))
                               (snd (relax_single cm rest k ab)) rest.
Proof. reflexivity. Qed.

Lemma relax_anchor_first cm (l u : Particle R) rest k :
  locked l = true -> locked u = false ->
  elasticity (deref cm (material u)) = 3 / 10 ->
  distance l u = 2 * rest -> 1 / 10000 < distance l u ->
  exists t q,
    relax_single cm rest k (l, u) = (l, q) /\ on_ray l u t q /\
    1 / 2 < t <= 1 /\ (k = 0%nat -> t = 1) /\ ((1 <= k)%nat -> t < 1).
Proof.
  intros Hl Hu He HD Hfl.
  induction k as [| k (t & q & Hk & Hray & Ht & H0 & Hlt)].
  - exists 1, u. split; [reflexivity |]. split; [now apply on_ray_start |].
    split; [lra |]. split; [reflexivity | lia].
  - rewrite relax_single_S, Hk. cbn [fst snd].
    destruct (pass_anchor_first cm l u q rest t Hl He HD ltac:(lra) Hray Ht)
      as (t' & q' & Hs & Hray' & Ht' & Hmove).
    exists t', q'. split; [assumption |]. split; [assumption |].
    split; [lra |]. split; [lia |].
    intros _. destruct k as [| k].
    + rewrite (H0 eq_refl) in *. apply Hmove. lra.
    + assert (t < 1) by (apply Hlt; lia). lra.
Qed.

Lemma relax_anchor_second cm (l u : Particle R) rest k :
  locked l = true -> locked u = false ->
  elasticity (deref cm (material u)) = 3 / 10 ->
  distance l u = 2 * rest -> 1 / 10000 < distance l u ->
  exists t q,
    relax_single cm rest k (u, l) = (q, l) /\ on_ray l u t q /\
    1 / 2 < t <= 1 /\ (k = 0%nat -> t = 1) /\ ((1 <= k)%nat -> t < 1).
Proof.
  intros Hl Hu He HD Hfl.
  induction k as [| k (t & q & Hk & Hray & Ht & H0 & Hlt)].
  - exists 1, u. split; [reflexivity |]. split; [now apply on_ray_start |].
    split; [lra |]. split; [reflexivity | lia].
  - rewrite relax_single_S, Hk. cbn [fst snd].
    destruct (pass_anchor_second cm l u q rest t Hl He HD ltac:(lra) Hray Ht)
      as (t' & q' & Hs & Hray' & Ht' & Hmove).
    exists t', q'. split; [assumption |]. split; [assumption |].
    split; [lra |]. split; [lia |].
    intros _. destruct k as [| k].
    + rewrite (H0 eq_refl) in *. apply Hmove. lra.
    + assert (t < 1) by (apply Hlt; lia). lra.
Qed.

Lemma closer_on_ray (l u q : Particle R) rest t :
  distance l u = 2 * rest -> 0 < rest ->
  on_ray l u t q -> 1 / 2 < t < 1 ->
  closer rest (distance l q) (distance l u) = true.
Proof.
  intros HD Hrest Hray Ht.
  rewrite (distance_on_ray_r l u t q) by (assumption || lra). rewrite HD.
  unfold closer, absdiff. cbn [fltb fsub real_scalar].
  assert (Rltb (t * (2 * rest)) rest = false) as -> by (apply Rltb_ge; nra).
  assert (Rltb (2 * rest) rest = false) as -> by (apply Rltb_ge; nra).
  apply Rltb_lt. nra.
Qed.

Lemma same_side_on_ray (l u q : Particle R) t :
  0 < distance l u -> on_ray l u t q -> 0 < t -> same_side l u q = true.
Proof.
  intros HD (Hx & Hy & _) Ht.
  unfold same_side, fgtb. cbn [fltb fsub fmul fadd of_int real_scalar].
  apply Rltb_lt. rewrite Hx, Hy.
  unfold distance in HD. cbn [fsub fmul fadd fsqrt real_scalar] in HD.
  set (X := x u - x l) in *. set (Y := y u - y l) in *.
  assert (0 < X * X + Y * Y).
  { destruct (Rle_lt_dec (X * X + Y * Y) 0) as [Hle | Hlt]; [| assumption].
    replace (X * X + Y * Y) with 0 in HD by nra. rewrite sqrt_0 in HD. lra. }
  replace ((x l + t * X - x l) * X + (y l + t * Y - y l) * Y) with (t * (X * X + Y * Y)) by ring.
  nra.
Qed.
End Exact.

(** ** The divisions of the force rule *)

Section CheckedGeneric.
Context {F : Type} `{Scalar F}.

Lemma fdiv_chk_Some (a b q : F) : fdiv_chk a b = Some q -> q = fdiv a b.
Proof. unfold fdiv_chk. destruct (feqb _ _); congruence. Qed.

Lemma fdiv_chk_nonzero (a b : F) :
  feqb b (of_int 0) = false -> fdiv_chk a b = Some (fdiv a b).
Proof. unfold fdiv_chk. now intros ->. Qed.

(** One checked division of the rule: it either stops the rule or
    yields the quotient. *)
Ltac step_div :=
  match goal with
  | |- context [fdiv_chk ?a ?b] =>
      let q := fresh "q" in
      let Hq := fresh "Hq" in
      destruct (fdiv_chk a b) as [q |] eqn:Hq; cbn [mbind option_bind];
      [apply fdiv_chk_Some in Hq; subst q;
       cbn [set_vx set_vy set_force_x set_force_y vx vy mass material
            force_x force_y x y old_x old_y]
      | discriminate]
  end.

(** Whenever no divisor is zero the checked rule returns what the
    rule returns. *)
Lemma apply_force_cotton_chk_sound cm (p r : Particle F) dt :
  apply_force_cotton_chk cm p dt = Some r -> r = apply_force_cotton cm p dt.
Proof.
  unfold apply_force_cotton_chk, apply_force_cotton.
  destruct (locked p); [congruence |].
  cbn [set_force_x set_force_y vx vy mass material force_x force_y].
  destruct (fgtb _ _); cbn [mbind option_bind]; repeat step_div;
    intros [= <-]; reflexivity.
Qed.
End CheckedGeneric.

Section Checked32.

Lemma of_int_0_binary32 : @of_int binary32 _ 0 = S754_zero false.
Proof. reflexivity. Qed.

Lemma feqb_zero_is_zero (a : binary32) : feqb a (of_int 0) = is_zero32 a.
Proof. destruct a as [s | s | | s m e]; try reflexivity; now destruct s. Qed.

Lemma positive_not_zero (a : binary32) :
  fltb (of_int 0) a = true -> feqb a (of_int 0) = false.
Proof.
  rewrite feqb_zero_is_zero. destruct a as [s | s | | s m e]; try reflexivity.
  discriminate.
Qed.

Lemma speed_of_zero_velocity (u v : binary32) :
  is_zero32 u = true -> is_zero32 v = true ->
  fsqrt (fadd (fmul u u) (fmul v v)) = S754_zero false.
Proof.
  destruct u as [su | | |], v as [sv | | |]; try discriminate.
  intros _ _. now destruct su, sv.
Qed.

Lemma apply_force_cotton_chk_total cm (p : Particle binary32) dt :
  feqb (mass p) (of_int 0) = false -> feqb dt (of_int 0) = false ->
  apply_force_cotton_chk cm p dt = Some (apply_force_cotton cm p dt).
Proof.
  intros Hm Hdt.
  unfold apply_force_cotton_chk, apply_force_cotton.
  destruct (locked p); [reflexivity |].
  cbn [set_force_x set_force_y vx vy mass material force_x force_y].
  destruct (fgtb _ _) eqn:Hs; [apply positive_not_zero in Hs |];
    cbn [mbind option_bind];
    repeat (rewrite fdiv_chk_nonzero by assumption;
            cbn [mbind option_bind set_vx set_vy set_force_x set_force_y vx vy mass
                 material force_x force_y x y old_x old_y]);
    reflexivity.
Qed.

End Checked32.

(** ** Constants and the starting state in single precision *)

Example elasticity_COTTON_binary32 :
  elasticity (@COTTON binary32 _) = S754_finite false 10066330 (-25).
Proof. reflexivity. Qed.

Example FLOOR_binary32 : @FLOOR binary32 _ = S754_finite false 13743895 (-37).
Proof. reflexivity. Qed.

Example start_binary32 :
  @start_x binary32 _ = S754_finite false 8388608 (-18) /\
  @start_y binary32 _ = S754_finite false 10747904 (-18).
Proof. split; reflexivity. Qed.

Lemma length_particles_initial_state : length (particles initial_state) = NUM_PARTICLES.
Proof. vm_compute. reflexivity. Qed.

Lemma length_constraints_initial_state :
  length (constraints initial_state) = NUM_CONSTRAINTS.
Proof. vm_compute. reflexivity. Qed.

(** Every constraint [init_constraints] builds joins two different
    particles of the array. *)
Lemma constraints_initial_state_wf :
  forallb (fun c => (p1 c <? NUM_PARTICLES)%nat && (p2 c <? NUM_PARTICLES)%nat
                    && negb (p1 c =? p2 c)%nat)
          (constraints initial_state) = true.
Proof. vm_compute. reflexivity. Qed.

Section Properties.
Context {F : Type} `{Scalar F}.

(** [C1] A locked particle keeps its position and previous position:
    the cotton force rule returns it unchanged, every force rule keeps
    it in place, the constraint rules return a locked endpoint
    unchanged in either argument position, the pointer snap skips it,
    and after any sequence of physics steps, and after any run of the
    main loop with any events and tick counts, the particle at the
    same index is locked with the same [x], [y], [old_x], [old_y]. *)
Theorem locked_particles_never_move
    (s : State F) (inputs : list (list SDL_Event * Z)) (dts : list F)
    (i : nat) (p : Particle F) :
  particles s !! i = Some p -> locked p = true ->
  (forall cm dt, apply_force_cotton cm p dt = p) /\
  (forall f cm dt, in_place p (call_force f cm p dt)) /\
  (forall f cm q rest,
     fst (call_solve f cm p q rest) = p /\ snd (call_solve f cm q p rest) = p) /\
  (forall mx my, mouse_snap mx my p = p) /\
  (exists q, particles (fold_left (fun s dt => physics_step dt s) dts s) !! i = Some q /\
             in_place p q) /\
  (exists q, particles (main_loop inputs s) !! i = Some q /\ in_place p q).
Proof.
  intros Hi Hp.
  split; [intros; now apply apply_force_cotton_locked |].
  split; [intros; now apply call_force_keeps |].
  split; [intros; split;
          [now apply call_solve_locked_fst | now apply call_solve_locked_snd] |].
  split; [intros; now apply mouse_snap_locked |].
  split.
  - destruct (Forall2_lookup_l _ _ _ _ _ (physics_steps_held dts s) Hi) as (q & Hq & Hk).
    exists q. split; [exact Hq | exact (Hk Hp)].
  - destruct (Forall2_lookup_l _ _ _ _ _ (main_loop_held inputs s) Hi) as (q & Hq & Hk).
    exists q. split; [exact Hq | exact (Hk Hp)].
Qed.

(** [C2] On an unlocked particle, for every time delta (so for every
    positive one), the cotton force rule computes [applyForce_spec]:
    force [(0, 980 * mass)] less the quadratic drag along the stored
    velocity when the stored speed is positive, velocity
    [(current - previous) / dt + (force / mass) * dt], position
    advanced by [velocity * dt], previous position the old current
    one. *)
Theorem apply_force_cotton_rule (cm : Material F) (p : Particle F) (dt : F) :
  locked p = false ->
  apply_force_cotton cm p dt = applyForce_spec cm p dt.
Proof. apply apply_force_cotton_unlocked. Qed.



(** [C10] Silk's constraint rule returns what cotton's returns on the
    same arguments, called directly or through the function pointers
    of [SILK] and [COTTON]. *)
Theorem solve_constraint_silk_is_cotton (cm : Material F) (a b : Particle F) (rest : F) :
  solve_constraint_silk cm a b rest = solve_constraint_cotton cm a b rest /\
  call_solve (solve_constraint SILK) cm a b rest
  = call_solve (solve_constraint COTTON) cm a b rest.
Proof. split; reflexivity. Qed.

Lemma set_current_material_same (s : State F) :
  set_current_material (current_material s) s = s.
Proof. destruct s; reflexivity. Qed.

(** [C7] From a state whose active material is cotton, the key
    presses 3 (denim), 2 (silk), 1 (cotton) give back the same state;
    force rule, constraint rule and physics step then act as
    cotton's. *)
Theorem material_round_trip (s : State F) :
  current_material s = COTTON ->
  let s' := fold_left handle_event
              [SDL_KEYDOWN SDLK_3; SDL_KEYDOWN SDLK_2; SDL_KEYDOWN SDLK_1] s in
  s' = s /\
  (forall p dt,
     call_force (apply_force (current_material s')) (current_material s') p dt
     = apply_force_cotton COTTON p dt) /\
  (forall a b rest,
     call_solve (solve_constraint (current_material s')) (current_material s') a b rest
     = solve_constraint_cotton COTTON a b rest) /\
  (forall dt, physics_step dt s' = physics_step dt s).
Proof.
  intros Hc s'.
  assert (Hs : s' = s).
  { unfold s'. transitivity (set_current_material COTTON s); [reflexivity |].
    rewrite <- Hc. apply set_current_material_same. }
  rewrite Hs, Hc. repeat split; reflexivity.
Qed.

(** [C6, amended] [init_particles] leaves an array of
    [GRID_WIDTH * GRID_HEIGHT] particles whose element
    [row * GRID_WIDTH + col] sits at
    [(start_x + col * spacing, start_y + row * spacing)], previous
    position equal to position, velocity and force zero, mass and
    material taken from [current_material], locked exactly when
    [row = 0].  [start_x] is half the free width, truncated (32, with
    33 units left on the right); [start_y] is a quarter of the free
    height, truncated (41, with 124 units left below). *)
Theorem init_particles_grid (s : State F) (row col : nat) :
  length (particles s) = NUM_PARTICLES ->
  (row < GRID_HEIGHT)%nat -> (col < GRID_WIDTH)%nat ->
  length (particles (init_particles s)) = (GRID_WIDTH * GRID_HEIGHT)%nat /\
  particles (init_particles s) !! (row * GRID_WIDTH + col)%nat
  = Some {| x := fadd start_x (of_int (Z.of_nat col * PARTICLE_SPACING));
            y := fadd start_y (of_int (Z.of_nat row * PARTICLE_SPACING));
            old_x := fadd start_x (of_int (Z.of_nat col * PARTICLE_SPACING));
            old_y := fadd start_y (of_int (Z.of_nat row * PARTICLE_SPACING));
            vx := of_int 0; vy := of_int 0;
            force_x := of_int 0; force_y := of_int 0;
            mass := m_mass (current_material s);
            locked := Nat.eqb row 0;
            neighbors := []; num_neighbors := 0;
            material := addr_current_material |} /\
  start_x = of_int ((SCREEN_WIDTH - (Z.of_nat GRID_WIDTH - 1) * PARTICLE_SPACING) ÷ 2) /\
  start_y = of_int ((SCREEN_HEIGHT - (Z.of_nat GRID_HEIGHT - 1) * PARTICLE_SPACING) ÷ 4) /\
  @start_x F _ = of_int 32 /\ @start_y F _ = of_int 41 /\
  SCREEN_WIDTH - (32 + (Z.of_nat GRID_WIDTH - 1) * PARTICLE_SPACING) = 33 /\
  SCREEN_HEIGHT - (41 + (Z.of_nat GRID_HEIGHT - 1) * PARTICLE_SPACING) = 124.
Proof.
  intros Hlen Hr Hc.
  split; [rewrite length_init_particles; exact Hlen |].
  split; [now apply lookup_init_particles |].
  repeat split; reflexivity.
Qed.

End Properties.

(** ** Properties in single precision *)







(** A constraint of the grid, of rest length 15 and stretched to 30
    below a locked particle, does relax in single precision. *)
Example stretched_constraint_relaxes_binary32 :
  relaxes_towards_rest COTTON (particle_at (of_int 32) (of_int 41) true)
                       (particle_at (of_int 32) (of_int 71) false) (of_int 15).
Proof.
  split; [vm_compute; reflexivity |].
  intros k Hk.
  do 6 (destruct k as [| k]; [vm_compute; split; reflexivity |]).
  lia.
Qed.

(** [C6, as stated] In single precision the free space after the grid
    is 33 against 32 before it horizontally, and 124 against 41
    vertically: the grid is not centred. *)
Lemma init_grid_not_centred :
  margin_after (@start_x binary32 _) GRID_WIDTH SCREEN_WIDTH = of_int 33 /\
  margin_after (@start_y binary32 _) GRID_HEIGHT SCREEN_HEIGHT = of_int 124 /\
  ~ centred (@start_x binary32 _) GRID_WIDTH SCREEN_WIDTH /\
  ~ centred (@start_y binary32 _) GRID_HEIGHT SCREEN_HEIGHT.
Proof.
  repeat split; try (vm_compute; reflexivity); unfold centred; vm_compute; discriminate.
Qed.

(** ** The stretched constraint in exact arithmetic *)


Lemma distance_real_particles_2 :
  distance (real_particle_at 0 0 true) (real_particle_at 2 0 false) = 2%R.
Proof.
  unfold distance. cbn [x y real_particle_at fsub fmul fadd fsqrt real_scalar].
  replace ((2 - 0) * (2 - 0) + (0 - 0) * (0 - 0))%R with (2 * 2)%R by ring.
  apply sqrt_square. lra.
Qed.


(** ** The general statements at the starting state *)

(** [C1] The theorem at the first particle of the top row, through one
    loop iteration with a button press at that particle and a change to
    silk, and through one physics step of [1/60] s. *)
Lemma locked_particles_never_move_witness :
  let p := init_particle (@COTTON binary32 _) 0 0 in
  let inputs := [([SDL_MOUSEBUTTONDOWN 32 41; SDL_KEYDOWN SDLK_2], 16)] in
  let dts : list binary32 := [flit 1 60] in
  particles initial_state !! 0%nat = Some p /\ locked p = true /\
  (exists q, particles (fold_left (fun s dt => physics_step dt s) dts initial_state) !! 0%nat
             = Some q /\ in_place p q) /\
  (exists q, particles (main_loop inputs initial_state) !! 0%nat = Some q /\ in_place p q).
Proof.
  intros p inputs dts.
  assert (Hi : particles initial_state !! 0%nat = Some p) by (vm_compute; reflexivity).
  assert (Hp : locked p = true) by reflexivity.
  split; [exact Hi |]. split; [exact Hp |].
  exact (proj2 (proj2 (proj2 (proj2
           (locked_particles_never_move initial_state inputs dts 0 p Hi Hp))))).
Defined.

(** [C2] The theorem at an unlocked cotton particle at rest and
    [dt = 1/60]. *)
Lemma apply_force_cotton_rule_witness :
  let p := particle_at (of_int 32) (of_int 56) false in
  let dt : binary32 := flit 1 60 in
  locked p = false /\
  apply_force_cotton COTTON p dt = applyForce_spec COTTON p dt.
Proof.
  intros p dt. split; [reflexivity |].
  apply (apply_force_cotton_rule COTTON p dt). reflexivity.
Defined.



(** [C6] The theorem at the arrays [main] starts with, row 1,
    column 2. *)
Lemma init_particles_grid_witness :
  length (particles boot_state) = NUM_PARTICLES /\
  (1 < GRID_HEIGHT)%nat /\ (2 < GRID_WIDTH)%nat /\
  particles (init_particles boot_state) !! (1 * GRID_WIDTH + 2)%nat
  = Some {| x := fadd start_x (of_int (Z.of_nat 2 * PARTICLE_SPACING));
            y := fadd start_y (of_int (Z.of_nat 1 * PARTICLE_SPACING));
            old_x := fadd start_x (of_int (Z.of_nat 2 * PARTICLE_SPACING));
            old_y := fadd start_y (of_int (Z.of_nat 1 * PARTICLE_SPACING));
            vx := of_int 0; vy := of_int 0;
            force_x := of_int 0; force_y := of_int 0;
            mass := m_mass (current_material boot_state);
            locked := false;
            neighbors := []; num_neighbors := 0;
            material := addr_current_material |}.
Proof.
  assert (Hlen : length (particles boot_state) = NUM_PARTICLES)
    by (vm_compute; reflexivity).
  assert (Hr : (1 < GRID_HEIGHT)%nat) by (unfold GRID_HEIGHT; lia).
  assert (Hc : (2 < GRID_WIDTH)%nat) by (unfold GRID_WIDTH; lia).
  split; [exact Hlen |]. split; [exact Hr |]. split; [exact Hc |].
  exact (proj1 (proj2 (init_particles_grid boot_state 1 2 Hlen Hr Hc))).
Defined.

(** [C7] The theorem at the starting state. *)
Lemma material_round_trip_witness :
  current_material initial_state = COTTON /\
  fold_left handle_event
    [SDL_KEYDOWN SDLK_3; SDL_KEYDOWN SDLK_2; SDL_KEYDOWN SDLK_1] initial_state
  = initial_state.
Proof.
  assert (Hc : current_material initial_state = COTTON) by reflexivity.
  split; [exact Hc |].
  exact (proj1 (material_round_trip initial_state Hc)).
Defined.

(** ** A constraint between a particle and itself *)

Lemma SFsub_diag (a : binary32) : zero_or_nan (SFsub prec32 emax32 a a) = true.
Proof.
  destruct a as [s | s | | s m e]; simpl; try reflexivity; try (now destruct s).
  now rewrite Z.sub_diag.
Qed.

(** When both pointers of a call address one particle the distance is
    zero or not a number, so nothing is stored: [solve_on] agrees with
    the C function on such a call too. *)
Lemma solve_constraint_cotton_same (cm : Material binary32) (a : Particle binary32)
    (rest : binary32) :
  solve_constraint_cotton cm a a rest = (a, a).
Proof.
  unfold solve_constraint_cotton. cbn [fsub binary32_scalar].
  pose proof (SFsub_diag (x a)) as Hx. pose proof (SFsub_diag (y a)) as Hy.
  destruct (SFsub prec32 emax32 (x a) (x a)) as [sx | | |]; try discriminate;
    destruct (SFsub prec32 emax32 (y a) (y a)) as [sy | | |]; try discriminate;
    try reflexivity.
  now destruct sx, sy.
Qed.

(** ** The constraint array after initialisation *)

Section Push.
Context {A : Type}.

Lemma push_row_fill (g : nat -> A) (w n : nat) (cs : list A) :
  fold_left (fun st gx => (<[snd st := g gx]> (fst st), S (snd st))) (seq 0 w) (cs, n)
  = (fill_row g n w cs, (n + w)%nat).
Proof.
  induction w as [| w IH].
  - cbn. now rewrite Nat.add_0_r.
  - rewrite seq_S, fold_left_app, IH. cbn [fold_left fst snd Nat.add].
    unfold fill_row. rewrite seq_S, fold_left_app. cbn [fold_left Nat.add].
    f_equal. lia.
Qed.

Lemma push_grid_S (g : nat -> nat -> A) (w h : nat) (st : list A * nat) :
  push_grid g w (S h) st
  = (fill_row (g h) (snd (push_grid g w h st)) w (fst (push_grid g w h st)),
     (snd (push_grid g w h st) + w)%nat).
Proof.
  unfold push_grid. rewrite seq_S, fold_left_app. cbn [fold_left Nat.add].
  destruct (fold_left _ (seq 0 h) st) as [cs n]. apply push_row_fill.
Qed.

Lemma snd_push_grid (g : nat -> nat -> A) w h cs n :
  snd (push_grid g w h (cs, n)) = (n + h * w)%nat.
Proof.
  induction h as [| h IH]; [cbn; lia |].
  rewrite push_grid_S. cbn [snd]. rewrite IH. lia.
Qed.

Lemma length_push_grid (g : nat -> nat -> A) w h cs n :
  length (fst (push_grid g w h (cs, n))) = length cs.
Proof.
  induction h as [| h IH]; [reflexivity |].
  rewrite push_grid_S. cbn [fst]. now rewrite length_fill_row.
Qed.

Lemma lookup_push_grid_out (g : nat -> nat -> A) w h cs n k :
  (k < n \/ n + h * w <= k)%nat ->
  fst (push_grid g w h (cs, n)) !! k = cs !! k.
Proof.
  induction h as [| h IH]; intros Hk; [reflexivity |].
  rewrite push_grid_S. cbn [fst]. rewrite snd_push_grid.
  rewrite lookup_fill_row_out by lia. apply IH. lia.
Qed.

Lemma lookup_push_grid_in (g : nat -> nat -> A) w h cs n gy gx :
  (gy < h)%nat -> (gx < w)%nat -> (n + h * w <= length cs)%nat ->
  fst (push_grid g w h (cs, n)) !! (n + gy * w + gx)%nat = Some (g gy gx).
Proof.
  induction h as [| h IH]; intros Hy Hx Hl; [lia |].
  rewrite push_grid_S. cbn [fst]. rewrite snd_push_grid.
  destruct (decide (gy = h)) as [-> | Hne].
  - apply lookup_fill_row_in; [assumption |]. rewrite length_push_grid. lia.
  - rewrite lookup_fill_row_out by nia. apply IH; lia.
Qed.
End Push.

Section InitConstraints.
Context {F : Type} `{Scalar F}.

Lemma constraints_init_constraints (s : State F) :
  constraints (init_constraints s)
  = fst (push_grid (vlink (current_material s)) GRID_WIDTH (GRID_HEIGHT - 1)
           (push_grid (hlink (current_material s)) (GRID_WIDTH - 1) GRID_HEIGHT
              (constraints s, 0%nat))).
Proof.
  unfold init_constraints, push_grid, push_constraint, hlink, vlink.
  cbn [constraints set_constraints]. reflexivity.
Qed.

Lemma init_constraints_layout_aux (s : State F) :
  length (constraints s) = NUM_CONSTRAINTS ->
  length (constraints (init_constraints s)) = NUM_CONSTRAINTS /\
  (forall gy gx, (gy < GRID_HEIGHT)%nat -> (gx < GRID_WIDTH - 1)%nat ->
     constraints (init_constraints s) !! (gy * (GRID_WIDTH - 1) + gx)%nat
     = Some (hlink (current_material s) gy gx)) /\
  (forall gy gx, (gy < GRID_HEIGHT - 1)%nat -> (gx < GRID_WIDTH)%nat ->
     constraints (init_constraints s)
       !! ((GRID_WIDTH - 1) * GRID_HEIGHT + gy * GRID_WIDTH + gx)%nat
     = Some (vlink (current_material s) gy gx)).
Proof.
  intros Hlen. rewrite constraints_init_constraints.
  destruct (push_grid (hlink (current_material s)) (GRID_WIDTH - 1) GRID_HEIGHT
              (constraints s, 0%nat)) as [cs n] eqn:Hh.
  assert (Hn : n = (GRID_HEIGHT * (GRID_WIDTH - 1))%nat).
  { change n with (snd (cs, n)). rewrite <- Hh, snd_push_grid. lia. }
  assert (Hcs : length cs = NUM_CONSTRAINTS).
  { change cs with (fst (cs, n)). rewrite <- Hh, length_push_grid. exact Hlen. }
  unfold NUM_CONSTRAINTS in *.
  split; [now rewrite length_push_grid |].
  split.
  - intros gy gx Hy Hx.
    rewrite lookup_push_grid_out by (subst n; nia).
    change cs with (fst (cs, n)). rewrite <- Hh.
    apply (lookup_push_grid_in _ _ _ _ 0%nat); try assumption. nia.
  - intros gy gx Hy Hx. subst n.
    replace ((GRID_WIDTH - 1) * GRID_HEIGHT + gy * GRID_WIDTH + gx)%nat
      with (GRID_HEIGHT * (GRID_WIDTH - 1) + gy * GRID_WIDTH + gx)%nat by lia.
    apply lookup_push_grid_in; try assumption. nia.
Qed.

Lemma hlink_neighbours cm gy gx :
  (gy < GRID_HEIGHT)%nat -> (gx < GRID_WIDTH - 1)%nat ->
  grid_neighbours (p1 (hlink cm gy gx)) (p2 (hlink cm gy gx)).
Proof.
  intros Hy Hx. unfold grid_neighbours, NUM_PARTICLES. cbn [p1 p2 hlink].
  split; [nia |]. split; [nia |]. left. split; [lia |].
  replace (gy * GRID_WIDTH + gx)%nat with (gx + gy * GRID_WIDTH)%nat by lia.
  rewrite Nat.Div0.mod_add, Nat.mod_small; lia.
Qed.

Lemma vlink_neighbours cm gy gx :
  (gy < GRID_HEIGHT - 1)%nat -> (gx < GRID_WIDTH)%nat ->
  grid_neighbours (p1 (vlink cm gy gx)) (p2 (vlink cm gy gx)).
Proof.
  intros Hy Hx. unfold grid_neighbours, NUM_PARTICLES. cbn [p1 p2 vlink].
  split; [nia |]. split; [nia |]. right. lia.
Qed.

(** Every slot of the array holds a horizontal or a vertical link. *)
Lemma init_constraints_cases (s : State F) k c :
  length (constraints s) = NUM_CONSTRAINTS ->
  constraints (init_constraints s) !! k = Some c ->
  (exists gy gx, (gy < GRID_HEIGHT)%nat /\ (gx < GRID_WIDTH - 1)%nat /\
                 c = hlink (current_material s) gy gx) \/
  (exists gy gx, (gy < GRID_HEIGHT - 1)%nat /\ (gx < GRID_WIDTH)%nat /\
                 c = vlink (current_material s) gy gx).
Proof.
  intros Hlen Hk.
  destruct (init_constraints_layout_aux s Hlen) as (Hl & Hh & Hv).
  assert (Hlt : (k < NUM_CONSTRAINTS)%nat) by (rewrite <- Hl; eapply lookup_lt_Some; eauto).
  unfold NUM_CONSTRAINTS in Hlt.
  assert (HW : (0 < GRID_WIDTH - 1)%nat) by (unfold GRID_WIDTH; lia).
  assert (HW' : (0 < GRID_WIDTH)%nat) by (unfold GRID_WIDTH; lia).
  destruct (Nat.lt_ge_cases k ((GRID_WIDTH - 1) * GRID_HEIGHT)) as [Hlo | Hhi].
  - left. exists (k / (GRID_WIDTH - 1))%nat, (k mod (GRID_WIDTH - 1))%nat.
    assert (Hy : (k / (GRID_WIDTH - 1) < GRID_HEIGHT)%nat)
      by (apply Nat.Div0.div_lt_upper_bound; lia).
    assert (Hx : (k mod (GRID_WIDTH - 1) < GRID_WIDTH - 1)%nat)
      by (apply Nat.mod_upper_bound; lia).
    split; [assumption |]. split; [assumption |].
    specialize (Hh _ _ Hy Hx).
    replace (k / (GRID_WIDTH - 1) * (GRID_WIDTH - 1) + k mod (GRID_WIDTH - 1))%nat
      with k in Hh by (rewrite (Nat.div_mod_eq k (GRID_WIDTH - 1)) at 1; lia).
    congruence.
  - right. set (j := (k - (GRID_WIDTH - 1) * GRID_HEIGHT)%nat).
    exists (j / GRID_WIDTH)%nat, (j mod GRID_WIDTH)%nat.
    assert (Hy : (j / GRID_WIDTH < GRID_HEIGHT - 1)%nat)
      by (apply Nat.Div0.div_lt_upper_bound; unfold j; lia).
    assert (Hx : (j mod GRID_WIDTH < GRID_WIDTH)%nat)
      by (apply Nat.mod_upper_bound; lia).
    split; [assumption |]. split; [assumption |].
    specialize (Hv _ _ Hy Hx).
    replace ((GRID_WIDTH - 1) * GRID_HEIGHT + j / GRID_WIDTH * GRID_WIDTH + j mod GRID_WIDTH)%nat
      with k in Hv by (pose proof (Nat.div_mod_eq j GRID_WIDTH); unfold j in *; lia).
    congruence.
Qed.

End InitConstraints.

(** ** What every rule respects, the loop respects *)

Section Invariants.
Context {F : Type} `{Scalar F}.

(** A relation between a particle and its later content that every
    rule respects is respected by the whole loop. *)
Section Preserved.
Variable R : relation (Particle F).
Hypothesis R_preorder : PreOrder R.
Hypothesis R_force : forall f cm p dt, R p (call_force f cm p dt).
Hypothesis R_solve : forall f cm a b rest,
  R a (fst (call_solve f cm a b rest)) /\ R b (snd (call_solve f cm a b rest)).
Hypothesis R_snap : forall mx my p, R p (mouse_snap mx my p).

Lemma Forall2_R_refl (ps : list (Particle F)) : Forall2 R ps ps.
Proof.
  apply Forall2_same_length_lookup_2; [reflexivity |].
  intros i p q Hp Hq. assert (p = q) by congruence. subst q. reflexivity.
Qed.

Lemma Forall2_R_trans (ps qs rs : list (Particle F)) :
  Forall2 R ps qs -> Forall2 R qs rs -> Forall2 R ps rs.
Proof.
  intros Hpq Hqr. eapply Forall2_trans; [| exact Hpq | exact Hqr].
  intros p q r Hp Hq. etransitivity; eassumption.
Qed.

Lemma Forall2_R_insert (ps : list (Particle F)) i p q :
  ps !! i = Some p -> R p q -> Forall2 R ps (<[i := q]> ps).
Proof.
  intros Hi Hpq. rewrite <- (list_insert_id ps i p Hi) at 1.
  apply Forall2_insert; [apply Forall2_R_refl | exact Hpq].
Qed.

Lemma Forall2_R_fold {A} (f : list (Particle F) -> A -> list (Particle F)) (l : list A) :
  (forall ps a, Forall2 R ps (f ps a)) -> forall ps, Forall2 R ps (fold_left f l ps).
Proof.
  intros Hf. induction l as [| a l IH]; intros ps; cbn [fold_left].
  - apply Forall2_R_refl.
  - eapply Forall2_R_trans; [apply Hf | apply IH].
Qed.

Lemma solve_on_preserves cm c (ps : list (Particle F)) : Forall2 R ps (solve_on cm c ps).
Proof.
  unfold solve_on.
  destruct (ps !! p1 c) as [a |] eqn:Ha; [| apply Forall2_R_refl].
  destruct (ps !! p2 c) as [b |] eqn:Hb; [| apply Forall2_R_refl].
  destruct (R_solve (solve_constraint cm) cm a b (rest_length c)) as [Hka Hkb].
  destruct (decide (p1 c = p2 c)) as [He | Hne].
  - rewrite He, list_insert_insert_eq. eapply Forall2_R_insert; eassumption.
  - eapply Forall2_R_trans; [eapply Forall2_R_insert; [exact Ha | exact Hka] |].
    eapply Forall2_R_insert; [| exact Hkb].
    now rewrite list_lookup_insert_ne.
Qed.

Lemma relaxation_loops_preserve (l : list nat) (s : State F) :
  Forall2 R (particles s)
    (particles
       (fold_left (fun s (j : nat) =>
            set_particles
              (fold_left (solve_at (current_material s) (constraints s))
                         (seq 0 NUM_CONSTRAINTS) (particles s))
              s) l s)).
Proof.
  revert s. induction l as [| j l IH]; intros s; cbn [fold_left]; [apply Forall2_R_refl |].
  eapply Forall2_R_trans; [| apply IH]. cbn [particles set_particles].
  apply Forall2_R_fold. intros ps i. unfold solve_at.
  destruct (_ !! i); [apply solve_on_preserves | apply Forall2_R_refl].
Qed.

Lemma handle_mouse_interaction_preserves (s : State F) :
  Forall2 R (particles s) (particles (handle_mouse_interaction s)).
Proof.
  unfold handle_mouse_interaction.
  destruct (mouse_down s); cbn [negb particles set_particles]; [| apply Forall2_R_refl].
  apply Forall2_R_fold. intros ps i.
  destruct (ps !! i) eqn:Hi; [| apply Forall2_R_refl].
  eapply Forall2_R_insert; [exact Hi | apply R_snap].
Qed.

(** The part of the step that follows the force loop. *)
Lemma after_force_preserves (s : State F) :
  Forall2 R (particles s)
    (particles
       (fold_left (fun s (j : nat) =>
            set_particles
              (fold_left (solve_at (current_material s) (constraints s))
                         (seq 0 NUM_CONSTRAINTS) (particles s))
              s) (seq 0 5) (handle_mouse_interaction s))).
Proof.
  eapply Forall2_R_trans;
    [apply handle_mouse_interaction_preserves | apply relaxation_loops_preserve].
Qed.

Lemma physics_step_preserves dt (s : State F) :
  Forall2 R (particles s) (particles (physics_step dt s)).
Proof.
  unfold physics_step.
  set (s1 := set_particles _ s).
  assert (H1 : Forall2 R (particles s) (particles s1)).
  { unfold s1. cbn [particles set_particles]. apply Forall2_R_fold.
    intros ps i. unfold force_at. destruct (ps !! i) eqn:Hi; [| apply Forall2_R_refl].
    eapply Forall2_R_insert; [exact Hi | apply R_force]. }
  eapply Forall2_R_trans; [exact H1 | apply after_force_preserves].
Qed.

Lemma main_loop_preserves inputs (s : State F) :
  Forall2 R (particles s) (particles (main_loop inputs s)).
Proof.
  revert s. induction inputs as [| [evs t] inputs IH]; intros s; cbn [main_loop];
    [apply Forall2_R_refl |].
  destruct (running s); [| apply Forall2_R_refl].
  eapply Forall2_R_trans; [| apply IH].
  unfold loop_body.
  eapply Forall2_R_trans; [| apply physics_step_preserves].
  cbn [particles set_last_time]. rewrite handle_events_particles. apply Forall2_R_refl.
Qed.
End Preserved.

(** *** What stepping never changes *)

#[local] Instance same_identity_preorder : PreOrder (@same_identity F).
Proof.
  split.
  - intros p. unfold same_identity. auto.
  - intros p q r (? & ? & ? & ? & ?) (? & ? & ? & ? & ?).
    unfold same_identity. repeat split; congruence.
Qed.

Lemma apply_force_cotton_identity cm (p : Particle F) dt :
  same_identity p (apply_force_cotton cm p dt).
Proof.
  unfold apply_force_cotton, same_identity.
  destruct (locked p) eqn:Hl; [auto |].
  cbn [set_force_x set_force_y vx vy mass material force_x force_y].
  destruct (fgtb _ _); cbn; auto.
Qed.

Lemma call_force_identity f cm (p : Particle F) dt :
  same_identity p (call_force f cm p dt).
Proof.
  pose proof (apply_force_cotton_identity cm p dt) as Hc.
  destruct f; cbn [call_force]; [exact Hc | |];
    unfold apply_force_silk, apply_force_denim;
    (etransitivity; [exact Hc |]); unfold same_identity; cbn; auto.
Qed.

Lemma call_solve_identity f cm (a b : Particle F) rest :
  same_identity a (fst (call_solve f cm a b rest)) /\
  same_identity b (snd (call_solve f cm a b rest)).
Proof.
  assert (Hc : forall r, same_identity a (fst (solve_constraint_cotton cm a b r)) /\
                         same_identity b (snd (solve_constraint_cotton cm a b r))).
  { intros r. unfold solve_constraint_cotton, same_identity.
    destruct (fgtb _ _); cbn [fst snd]; [| auto 10].
    destruct (locked a) eqn:Ha, (locked b) eqn:Hb; cbn; auto 10. }
  destruct f; cbn [call_solve]; apply Hc.
Qed.

Lemma mouse_snap_identity mx my (p : Particle F) :
  same_identity p (mouse_snap mx my p).
Proof.
  unfold mouse_snap, same_identity. destruct (_ && _); cbn; auto.
Qed.

Lemma main_loop_identity inputs (s : State F) :
  Forall2 same_identity (particles s) (particles (main_loop inputs s)).
Proof.
  apply main_loop_preserves.
  - apply _.
  - apply call_force_identity.
  - apply call_solve_identity.
  - apply mouse_snap_identity.
Qed.

(** Everything of the state but [particles] and [last_time]. *)
Lemma physics_step_frame dt (s : State F) :
  constraints (physics_step dt s) = constraints s /\
  current_material (physics_step dt s) = current_material s /\
  mouse_x (physics_step dt s) = mouse_x s /\ mouse_y (physics_step dt s) = mouse_y s /\
  mouse_down (physics_step dt s) = mouse_down s /\
  running (physics_step dt s) = running s /\
  last_time (physics_step dt s) = last_time s.
Proof.
  unfold physics_step.
  set (s1 := set_particles _ s).
  set (s2 := handle_mouse_interaction s1).
  assert (H2 : constraints s2 = constraints s /\ current_material s2 = current_material s /\
               mouse_x s2 = mouse_x s /\ mouse_y s2 = mouse_y s /\
               mouse_down s2 = mouse_down s /\ running s2 = running s /\
               last_time s2 = last_time s).
  { unfold s2, handle_mouse_interaction. destruct (mouse_down s1) eqn:Hd; cbn; auto 10. }
  revert H2. generalize (seq 0 5) s2. clear.
  intros l. induction l as [| j l IH]; intros s2 H2; cbn [fold_left]; [exact H2 |].
  apply IH. cbn. exact H2.
Qed.

Lemma handle_event_constraints (s : State F) e :
  constraints (handle_event s e) = constraints s.
Proof.
  destruct e; cbn; try reflexivity.
  repeat (destruct (_ =? _); [reflexivity |]). reflexivity.
Qed.

Lemma main_loop_constraints inputs (s : State F) :
  constraints (main_loop inputs s) = constraints s.
Proof.
  revert s. induction inputs as [| [evs t] inputs IH]; intros s; cbn [main_loop];
    [reflexivity |].
  destruct (running s); [| reflexivity].
  rewrite IH. unfold loop_body.
  rewrite (proj1 (physics_step_frame _ _)). cbn [constraints set_last_time].
  induction evs as [| e evs IHe] using rev_ind; [reflexivity |].
  rewrite fold_left_app. cbn [fold_left]. now rewrite handle_event_constraints.
Qed.

(** *** Quitting *)

Lemma handle_event_running (s : State F) e :
  running s = false -> running (handle_event s e) = false.
Proof.
  intros Hr. destruct e; cbn; try assumption; try reflexivity.
  repeat (destruct (_ =? _); [assumption |]). assumption.
Qed.

Lemma handle_events_running evs (s : State F) :
  running s = false -> running (fold_left handle_event evs s) = false.
Proof.
  revert s. induction evs as [| e evs IH]; intros s Hr; cbn [fold_left]; [assumption |].
  apply IH. now apply handle_event_running.
Qed.

Lemma handle_events_quit evs (s : State F) :
  In SDL_QUIT evs -> running (fold_left handle_event evs s) = false.
Proof.
  revert s. induction evs as [| e evs IH]; intros s Hin; [destruct Hin |].
  cbn [fold_left]. destruct Hin as [-> | Hin].
  - apply handle_events_running. reflexivity.
  - now apply IH.
Qed.

Lemma loop_body_running evs t (s : State F) :
  running (loop_body evs t s) = running (fold_left handle_event evs s).
Proof.
  unfold loop_body. now rewrite (proj1 (proj2 (proj2 (proj2 (proj2 (proj2 (physics_step_frame _ _))))))).
Qed.

Lemma handle_events_last_time evs (s : State F) :
  last_time (fold_left handle_event evs s) = last_time s.
Proof.
  revert s. induction evs as [| e evs IH]; intros s; cbn [fold_left]; [reflexivity |].
  rewrite IH. destruct e; cbn; try reflexivity.
  repeat (destruct (_ =? _); [reflexivity |]). reflexivity.
Qed.

(** The particle at an index of the array after the force loop. *)
Lemma lookup_force_loop cm dt (ps : list (Particle F)) n i p :
  (i < n)%nat -> ps !! i = Some p ->
  fold_left (force_at cm dt) (seq 0 n) ps !! i
  = Some (call_force (apply_force cm) cm p dt).
Proof.
  intros Hi Hp.
  pose proof (lookup_update_loop (fun p => call_force (apply_force cm) cm p dt) n ps i) as HL.
  unfold update_loop in HL. unfold force_at. rewrite HL, Hp.
  now replace (i <? n)%nat with true by (symmetry; now apply Nat.ltb_lt).
Qed.

(** *** Material keys *)

Lemma handle_event_material (s : State F) e :
  current_material (handle_event s e)
  = match key_material e with Some m => m | None => current_material s end.
Proof.
  destruct e; cbn; try reflexivity.
  repeat (destruct (_ =? _); [reflexivity |]). reflexivity.
Qed.

Lemma handle_events_no_key evs (s : State F) :
  Forall (fun e => key_material e = None) evs ->
  current_material (fold_left handle_event evs s) = current_material s.
Proof.
  revert s. induction evs as [| e evs IH]; intros s Hall; [reflexivity |].
  cbn [fold_left]. inversion Hall as [| ? ? He Hrest]; subst.
  rewrite IH by assumption. rewrite handle_event_material. now rewrite He.
Qed.

(** *** The pointer pass *)

Lemma mouse_snap_idempotent mx my (p : Particle F) :
  mouse_snap mx my (mouse_snap mx my p) = mouse_snap mx my p.
Proof.
  assert (Hcases : mouse_snap mx my p = p \/
                   mouse_snap mx my p
                   = set_old_y (of_int my) (set_old_x (of_int mx)
                       (set_y (of_int my) (set_x (of_int mx) p)))).
  { unfold mouse_snap. destruct (_ && _); auto. }
  destruct Hcases as [Hp | Hp].
  - now rewrite Hp, Hp.
  - rewrite Hp. unfold mouse_snap.
    cbn [x y locked set_x set_y set_old_x set_old_y].
    destruct (_ && _); reflexivity.
Qed.

End Invariants.

(** ** NaN and the zero time step *)

Section NotANumber.

#[local] Instance nan_stays_preorder : PreOrder nan_stays.
Proof.
  split.
  - intros p. split; auto.
  - intros p q r [Hx Hy] [Hx' Hy']. split; auto.
Qed.

Lemma is_nan32_eq (a : binary32) : is_nan32 a = true -> a = S754_nan.
Proof. destruct a; try discriminate. reflexivity. Qed.

(** The distance from or to a particle with a NaN coordinate is NaN. *)
Lemma distance_nan_l (a b : Particle binary32) :
  is_nan32 (x a) = true \/ is_nan32 (y a) = true -> distance a b = S754_nan.
Proof.
  unfold distance. cbn [fsub fmul fadd fsqrt binary32_scalar].
  intros [Hn | Hn]; apply is_nan32_eq in Hn; rewrite Hn.
  - now destruct (x b).
  - destruct (y b); cbn; now destruct (SFmul _ _ _ _).
Qed.

Lemma distance_nan_r (a b : Particle binary32) :
  is_nan32 (x b) = true \/ is_nan32 (y b) = true -> distance a b = S754_nan.
Proof.
  unfold distance. cbn [fsub fmul fadd fsqrt binary32_scalar].
  intros [Hn | Hn]; apply is_nan32_eq in Hn; rewrite Hn; cbn.
  - reflexivity.
  - now destruct (SFmul _ _ _ _).
Qed.

Lemma solve_constraint_cotton_nan cm (a b : Particle binary32) rest :
  distance a b = S754_nan -> solve_constraint_cotton cm a b rest = (a, b).
Proof.
  intros Hd. unfold solve_constraint_cotton. fold (distance a b). now rewrite Hd.
Qed.

Lemma call_solve_nan_stays f cm (a b : Particle binary32) rest :
  nan_stays a (fst (call_solve f cm a b rest)) /\
  nan_stays b (snd (call_solve f cm a b rest)).
Proof.
  assert (Hc : forall r, nan_stays a (fst (solve_constraint_cotton cm a b r)) /\
                         nan_stays b (snd (solve_constraint_cotton cm a b r))).
  { intros r.
    assert (Hl : is_nan32 (x a) = true \/ is_nan32 (y a) = true ->
                 solve_constraint_cotton cm a b r = (a, b))
      by (intros Hn; now apply solve_constraint_cotton_nan, distance_nan_l).
    assert (Hr : is_nan32 (x b) = true \/ is_nan32 (y b) = true ->
                 solve_constraint_cotton cm a b r = (a, b))
      by (intros Hn; now apply solve_constraint_cotton_nan, distance_nan_r).
    split; split; intros Hn.
    - now rewrite Hl by auto.
    - now rewrite Hl by auto.
    - now rewrite Hr by auto.
    - now rewrite Hr by auto. }
  destruct f; cbn [call_solve]; apply Hc.
Qed.

Lemma mouse_snap_nan_stays mx my (p : Particle binary32) :
  nan_stays p (mouse_snap mx my p).
Proof.
  assert (Hn : is_nan32 (x p) = true \/ is_nan32 (y p) = true -> mouse_snap mx my p = p).
  { intros Hn. unfold mouse_snap. cbn [fsub fmul fadd fsqrt fltb binary32_scalar].
    destruct Hn as [Hn | Hn]; apply is_nan32_eq in Hn; rewrite Hn; cbn.
    - reflexivity.
    - now destruct (SFmul _ _ _ _). }
  split; intros Hx; rewrite Hn; auto.
Qed.

Lemma apply_force_cotton_nan_stays cm (p : Particle binary32) dt :
  nan_stays p (apply_force_cotton cm p dt).
Proof.
  destruct (locked p) eqn:Hl.
  - rewrite apply_force_cotton_locked by assumption. reflexivity.
  - rewrite apply_force_cotton_unlocked by assumption.
    unfold applyForce_spec. cbn [x y fadd binary32_scalar].
    split; intros Hn; apply is_nan32_eq in Hn; rewrite Hn; reflexivity.
Qed.

Lemma call_force_nan_stays f cm (p : Particle binary32) dt :
  nan_stays p (call_force f cm p dt).
Proof.
  pose proof (apply_force_cotton_nan_stays cm p dt) as Hc.
  destruct f; cbn [call_force]; [exact Hc | |];
    unfold apply_force_silk, apply_force_denim; exact Hc.
Qed.

Lemma main_loop_nan_stays inputs (s : State binary32) :
  Forall2 nan_stays (particles s) (particles (main_loop inputs s)).
Proof.
  apply main_loop_preserves.
  - apply _.
  - apply call_force_nan_stays.
  - apply call_solve_nan_stays.
  - apply mouse_snap_nan_stays.
Qed.

(** A step of length zero. *)
Lemma velocity_times_zero_dt (a b dt : binary32) :
  is_zero32 dt = true ->
  SFmul prec32 emax32
    (SFadd prec32 emax32 (SFdiv prec32 emax32 a dt) (SFmul prec32 emax32 b dt)) dt
  = S754_nan.
Proof.
  destruct dt as [sd | | |]; try discriminate. intros _.
  destruct a as [sa | sa | | sa ma ea], b as [sb | sb | | sb mb eb]; cbn; try reflexivity;
    now destruct sa, sb, sd.
Qed.

Lemma SFadd_nan_r (a : binary32) : SFadd prec32 emax32 a S754_nan = S754_nan.
Proof. now destruct a. Qed.

Lemma apply_force_cotton_zero_dt cm (p : Particle binary32) dt :
  locked p = false -> is_zero32 dt = true ->
  x (apply_force_cotton cm p dt) = S754_nan /\ y (apply_force_cotton cm p dt) = S754_nan.
Proof.
  intros Hl Hdt. rewrite apply_force_cotton_unlocked by assumption.
  unfold applyForce_spec, spec_velocity.
  cbn [x y fst snd fadd fmul fdiv binary32_scalar].
  rewrite !velocity_times_zero_dt by assumption.
  rewrite !SFadd_nan_r. auto.
Qed.

Lemma call_force_zero_dt f cm (p : Particle binary32) dt :
  locked p = false -> is_zero32 dt = true ->
  x (call_force f cm p dt) = S754_nan /\ y (call_force f cm p dt) = S754_nan.
Proof.
  intros Hl Hdt. pose proof (apply_force_cotton_zero_dt cm p dt Hl Hdt) as Hc.
  destruct f; cbn [call_force]; [exact Hc | |];
    unfold apply_force_silk, apply_force_denim; exact Hc.
Qed.

End NotANumber.

Section ZeroFrame.

Lemma frame_dt_same_tick (last_time current_time : Z) :
  (current_time - last_time) mod 2 ^ 32 = 0 ->
  @frame_dt binary32 _ last_time current_time = S754_zero false.
Proof. intros Hz. unfold frame_dt. rewrite Hz. vm_compute. reflexivity. Qed.

Lemma loop_body_zero_frame_aux evs current_time (s : State binary32) i p :
  (i < NUM_PARTICLES)%nat -> particles s !! i = Some p -> locked p = false ->
  (current_time - last_time s) mod 2 ^ 32 = 0 ->
  exists q, particles (loop_body evs current_time s) !! i = Some q /\
            x q = S754_nan /\ y q = S754_nan.
Proof.
  intros Hi Hp Hl Hz. unfold loop_body. rewrite handle_events_last_time.
  fold (@frame_dt binary32 _ (last_time s) current_time).
  rewrite frame_dt_same_tick by assumption.
  set (se := set_last_time current_time (fold_left handle_event evs s)).
  assert (Hpe : particles se !! i = Some p)
    by (unfold se; cbn [particles set_last_time]; now rewrite handle_events_particles).
  unfold physics_step.
  set (s1 := set_particles _ se).
  assert (H1 : particles s1 !! i
               = Some (call_force (apply_force (current_material se)) (current_material se)
                         p (S754_zero false)))
    by (unfold s1; cbn [particles set_particles]; now apply lookup_force_loop).
  destruct (call_force_zero_dt (apply_force (current_material se)) (current_material se)
              p (S754_zero false) Hl eq_refl) as [Hx Hy].
  pose proof (after_force_preserves nan_stays nan_stays_preorder call_solve_nan_stays mouse_snap_nan_stays s1)
    as Hrest.
  destruct (Forall2_lookup_l _ _ _ _ _ Hrest H1) as (q & Hq & Hnx & Hny).
  exists q. split; [exact Hq |].
  split; apply is_nan32_eq; [apply Hnx | apply Hny]; [rewrite Hx | rewrite Hy]; reflexivity.
Qed.
End ZeroFrame.

Section TimeStep.
(** Rounding a non-negative significand gives no NaN. *)
Lemma shr_1_nonneg mrs : 0 <= shr_m mrs -> 0 <= shr_m (shr_1 mrs).
Proof.
  destruct mrs as [m r s0]. cbn [shr_m]. intros Hm.
  destruct m as [| [p | p |] | p]; cbn; lia.
Qed.

Lemma iter_pos_shr_1_nonneg n mrs :
  0 <= shr_m mrs -> 0 <= shr_m (SpecFloat.iter_pos shr_1 n mrs).
Proof.
  revert mrs. induction n as [n IH | n IH |]; intros mrs Hm; cbn [SpecFloat.iter_pos].
  - apply IH, IH. now apply shr_1_nonneg.
  - apply IH, IH. exact Hm.
  - now apply shr_1_nonneg.
Qed.

Lemma shr_fexp_nonneg m e l :
  0 <= m -> 0 <= shr_m (fst (shr_fexp prec32 emax32 m e l)).
Proof.
  intros Hm. unfold shr_fexp, shr.
  assert (H0 : 0 <= shr_m (shr_record_of_loc m l)) by (destruct l as [| []]; exact Hm).
  destruct (_ - e); cbn [fst]; try exact H0.
  now apply iter_pos_shr_1_nonneg.
Qed.

Lemma binary_round_aux_nonneg m e l :
  0 <= m -> nonneg32 (binary_round_aux prec32 emax32 false m e l) = true.
Proof.
  intros Hm. unfold binary_round_aux.
  pose proof (shr_fexp_nonneg m e l Hm) as H1.
  destruct (shr_fexp prec32 emax32 m e l) as [mrs e']. cbn [fst] in H1.
  assert (H2 : 0 <= round_nearest_even (shr_m mrs) (loc_of_shr_record mrs)).
  { unfold round_nearest_even. destruct (loc_of_shr_record mrs) as [| []]; try lia.
    destruct (Z.even _); lia. }
  pose proof (shr_fexp_nonneg _ e' loc_Exact H2) as H3.
  destruct (shr_fexp prec32 emax32 _ e' loc_Exact) as [mrs' e'']. cbn [fst] in H3.
  destruct (shr_m mrs'); [reflexivity | | lia].
  destruct (_ <=? _); reflexivity.
Qed.

Lemma of_int_nonneg (n : Z) : 0 <= n -> nonneg32 (@of_int binary32 _ n) = true.
Proof.
  intros Hn. cbn [of_int binary32_scalar]. unfold binary_normalize.
  destruct n as [| p | p]; [reflexivity | | lia].
  unfold binary_round. destruct (shl_align _ _ _) as [mz ez].
  apply binary_round_aux_nonneg. lia.
Qed.

Lemma SFdiv_nonneg_pos (a : binary32) sm se :
  nonneg32 a = true ->
  nonneg32 (SFdiv prec32 emax32 a (S754_finite false sm se)) = true.
Proof.
  destruct a as [sa | sa | | sa ma ea]; cbn; try discriminate; try (now destruct sa).
  intros Hs. destruct sa; [discriminate |]. cbn [xorb].
  unfold SFdiv_core_binary.
  set (m' := match _ with Z0 => _ | Zpos _ => _ | Zneg _ => _ end).
  assert (Hm' : 0 <= m').
  { unfold m'. destruct (_ - _ - _); try lia. apply Z.shiftl_nonneg. lia. }
  pose proof (Z.div_eucl_eq m' (Zpos sm) ltac:(lia)) as Hqr.
  pose proof (Z.mod_pos_bound m' (Zpos sm) ltac:(lia)) as Hr.
  unfold Z.modulo in Hr.
  destruct (Z.div_eucl m' (Z.pos sm)) as [q r].
  apply binary_round_aux_nonneg. nia.
Qed.

Lemma frame_dt_nonneg (last_time current_time : Z) :
  nonneg32 (@frame_dt binary32 _ last_time current_time) = true.
Proof.
  unfold frame_dt.
  change (@flit binary32 _ 10000 10) with (S754_finite false 16384000 (-14)).
  apply SFdiv_nonneg_pos, of_int_nonneg.
  apply Z.mod_pos_bound. lia.
Qed.
End TimeStep.

(** ** Energy *)

Section EnergyFacts.

Lemma call_energy_locked_binary32 f (cm : Material binary32) (p : Particle binary32) ns k :
  locked p = true -> call_energy f cm p ns k = S754_zero false.
Proof.
  intros Hl.
  assert (Hc : calc_energy_cotton cm p ns k = S754_zero false)
    by (unfold calc_energy_cotton; now rewrite Hl).
  destruct f; cbn [call_energy]; unfold calc_energy_silk, calc_energy_denim;
    rewrite Hc; vm_compute; reflexivity.
Qed.

Open Scope R_scope.

Lemma spring_loop_nonneg (cm : Material R) (p : Particle R) (ns : list (Particle R))
    (l : list nat) acc :
  0 <= stiffness (deref cm (material p)) -> 0 <= acc ->
  0 <= fold_left (fun spring i =>
                    match ns !! i with
                    | Some n => add_spring cm p spring n
                    | None => spring
                    end) l acc.
Proof.
  intros Hk. revert acc. induction l as [| i l IH]; intros acc Hacc; cbn [fold_left];
    [assumption |].
  apply IH. destruct (ns !! i) as [n |]; [| assumption].
  unfold add_spring. cbn [fadd fsub fmul fsqrt of_int real_scalar].
  change (@flit R _ 5 10) with (5 / 10).
  set (d := sqrt _ - IZR PARTICLE_SPACING).
  assert (0 <= 5 / 10 * stiffness (deref cm (material p)) * d * d) by nra.
  lra.
Qed.

Lemma calc_energy_cotton_nonneg (cm : Material R) (p : Particle R) ns k :
  0 <= mass p -> 0 <= y p -> 0 <= stiffness (deref cm (material p)) ->
  0 <= calc_energy_cotton cm p ns k.
Proof.
  intros Hm Hy Hk. unfold calc_energy_cotton.
  destruct (locked p); [cbn; lra |].
  assert (H0 : 0 <= @of_int R _ 0) by (cbn; lra).
  pose proof (spring_loop_nonneg cm p ns (seq 0 (Z.to_nat k)) (of_int 0) Hk H0) as Hs.
  cbn [fadd fmul real_scalar] in *.
  change (@flit R _ 5 10) with (5 / 10). change (@flit R _ 9800 10) with (9800 / 10).
  set (S := fold_left _ _ _) in *.
  assert (0 <= 5 / 10 * mass p * (vx p * vx p + vy p * vy p)) by nra.
  assert (0 <= mass p * (9800 / 10) * y p) by nra.
  lra.
Qed.

Lemma call_energy_nonneg f (cm : Material R) (p : Particle R) ns k :
  0 <= mass p -> 0 <= y p -> 0 <= stiffness (deref cm (material p)) ->
  0 <= call_energy f cm p ns k.
Proof.
  intros Hm Hy Hk. pose proof (calc_energy_cotton_nonneg cm p ns k Hm Hy Hk) as Hc.
  destruct f; cbn [call_energy]; [exact Hc | |];
    unfold calc_energy_silk, calc_energy_denim; cbn [fmul real_scalar].
  - change (@flit R _ 8 10) with (8 / 10). nra.
  - change (@flit R _ 12 10) with (12 / 10). nra.
Qed.

End EnergyFacts.

(** ** A constraint at its rest length *)

Section AtRest.

Notation "a ⊕ b" := (SFadd prec32 emax32 a b) (at level 50, left associativity).
Notation "a ⊖ b" := (SFsub prec32 emax32 a b) (at level 50, left associativity).
Notation "a ⊗ b" := (SFmul prec32 emax32 a b) (at level 40, left associativity).

Lemma SFsub_finite_diag s m e :
  S754_finite s m e ⊖ S754_finite s m e = S754_zero false.
Proof. cbn. now rewrite Z.sub_diag. Qed.

Lemma irregular_square (d : binary32) :
  regular32 d = false -> d ⊗ d = S754_nan \/ d ⊗ d = S754_infinity false.
Proof.
  destruct d as [sd | sd | | sd md ed]; try discriminate; intros _.
  - right. now destruct sd.
  - now left.
Qed.

Lemma sqrt_sum_irregular_l (v w : binary32) :
  v = S754_nan \/ v = S754_infinity false ->
  is_finite32 (SFsqrt prec32 emax32 (v ⊕ w)) = false.
Proof.
  intros [-> | ->]; [reflexivity |].
  destruct w as [sw | sw | | sw mw ew]; try reflexivity. now destruct sw.
Qed.

Lemma sqrt_sum_irregular_r (v w : binary32) :
  w = S754_nan \/ w = S754_infinity false ->
  is_finite32 (SFsqrt prec32 emax32 (v ⊕ w)) = false.
Proof.
  intros [-> | ->].
  - now destruct v.
  - destruct v as [sv | sv | | sv mv ev]; try reflexivity. now destruct sv.
Qed.

(** A finite length has regular components. *)
Lemma finite_length_regular (dx dy : binary32) :
  is_finite32 (SFsqrt prec32 emax32 (dx ⊗ dx ⊕ dy ⊗ dy)) = true ->
  regular32 dx = true /\ regular32 dy = true.
Proof.
  intros Hf. split.
  - destruct (regular32 dx) eqn:Hr; [reflexivity |].
    rewrite sqrt_sum_irregular_l in Hf by now apply irregular_square.
    discriminate.
  - destruct (regular32 dy) eqn:Hr; [reflexivity |].
    rewrite sqrt_sum_irregular_r in Hf by now apply irregular_square.
    discriminate.
Qed.

Lemma regular_times_zero (d : binary32) s :
  regular32 d = true -> is_zero32 (d ⊗ S754_zero s) = true.
Proof. destruct d; try discriminate; reflexivity. Qed.

Lemma zero_times_regular (z e : binary32) :
  is_zero32 z = true -> regular32 e = true -> is_zero32 (z ⊗ e) = true.
Proof. destruct z, e; try discriminate; reflexivity. Qed.

Lemma add_zero_same_value (u z : binary32) :
  is_zero32 z = true -> same_value u (u ⊕ z).
Proof.
  destruct z as [sz | | |]; try discriminate. intros _.
  destruct u as [su | | |]; try (left; reflexivity).
  right. now destruct su, sz.
Qed.

Lemma sub_zero_same_value (u z : binary32) :
  is_zero32 z = true -> same_value u (u ⊖ z).
Proof.
  destruct z as [sz | | |]; try discriminate. intros _.
  destruct u as [su | | |]; try (left; reflexivity).
  right. now destruct su, sz.
Qed.

(** The correction of a constraint whose length error is zero. *)
Lemma correction_zero (d e : binary32) :
  regular32 d = true -> regular32 e = true ->
  is_zero32 (d ⊗ S754_zero false ⊗ flit 5 10 ⊗ e) = true.
Proof.
  intros Hd He. apply zero_times_regular; [| exact He].
  apply zero_times_regular; [| reflexivity].
  now apply regular_times_zero.
Qed.

Lemma solve_constraint_cotton_at_rest_aux
    (cm : Material binary32) (a b : Particle binary32) (rest : binary32) :
  distance a b = rest -> is_finite32 rest = true ->
  regular32 (elasticity (deref cm (material a))) = true ->
  regular32 (elasticity (deref cm (material b))) = true ->
  same_particle a (fst (solve_constraint_cotton cm a b rest)) /\
  same_particle b (snd (solve_constraint_cotton cm a b rest)).
Proof.
  intros Hd Hfin Hea Heb.
  unfold solve_constraint_cotton. fold (distance a b). rewrite Hd.
  destruct (fgtb rest _) eqn:Hfl; [| split; apply same_particle_refl].
  assert (Hreg : regular32 (fsub (x b) (x a)) = true /\ regular32 (fsub (y b) (y a)) = true).
  { apply finite_length_regular. unfold distance in Hd.
    cbn [fsub fmul fadd fsqrt binary32_scalar] in *. now rewrite Hd. }
  destruct Hreg as [Hdx Hdy].
  assert (Hdiff : fdiv (fsub rest rest) rest = S754_zero false).
  { destruct rest as [| | | s m e]; try discriminate.
    cbn [fsub fdiv binary32_scalar]. rewrite SFsub_finite_diag.
    cbn. destruct s; [discriminate Hfl | reflexivity]. }
  rewrite Hdiff. cbn [fst snd].
  split.
  - destruct (locked a); cbn [negb]; [apply same_particle_refl |].
    unfold same_particle. cbn. repeat split; try reflexivity.
    + apply add_zero_same_value. now apply correction_zero.
    + apply add_zero_same_value. now apply correction_zero.
  - destruct (locked b); cbn [negb]; [apply same_particle_refl |].
    unfold same_particle. cbn. repeat split; try reflexivity.
    + apply sub_zero_same_value. now apply correction_zero.
    + apply sub_zero_same_value. now apply correction_zero.
Qed.
End AtRest.

Section InitialRest.

Lemma binary32_eqb_eq (a b : binary32) : binary32_eqb a b = true -> a = b.
Proof.
  destruct a as [s | s | | s m e], b as [s' | s' | | s' m' e']; cbn; try discriminate;
    try reflexivity.
  - intros Hs. apply Bool.eqb_prop in Hs. now subst.
  - intros Hs. apply Bool.eqb_prop in Hs. now subst.
  - intros Hs. apply andb_prop in Hs as [Hs He]. apply andb_prop in Hs as [Hs Hm].
    apply Bool.eqb_prop in Hs. apply Pos.eqb_eq in Hm. apply Z.eqb_eq in He. now subst.
Qed.

(** Neighbouring particles of the grid are exactly one spacing apart. *)
Lemma init_distances_checked :
  forallb (fun gy =>
    forallb (fun gx =>
      binary32_eqb (distance (init_particle (@COTTON binary32 _) gy gx)
                             (init_particle COTTON gy (gx + 1)))
                   (of_int PARTICLE_SPACING)
      && binary32_eqb (distance (init_particle (@COTTON binary32 _) gy gx)
                                (init_particle COTTON (gy + 1) gx))
                      (of_int PARTICLE_SPACING))
      (seq 0 GRID_WIDTH))
    (seq 0 GRID_HEIGHT) = true.
Proof. vm_compute. reflexivity. Qed.

Lemma init_distance_right (cm : Material binary32) gy gx :
  (gy < GRID_HEIGHT)%nat -> (gx < GRID_WIDTH)%nat ->
  distance (init_particle cm gy gx) (init_particle cm gy (gx + 1)) = of_int PARTICLE_SPACING
  /\ distance (init_particle cm gy gx) (init_particle cm (gy + 1) gx)
     = of_int PARTICLE_SPACING.
Proof.
  intros Hy Hx.
  pose proof init_distances_checked as Hc.
  rewrite forallb_forall in Hc. specialize (Hc gy).
  rewrite forallb_forall in Hc.
  assert (Hin : forall n k, (k < n)%nat -> In k (seq 0 n))
    by (intros n k Hk; apply in_seq; lia).
  specialize (Hc (Hin _ _ Hy) gx (Hin _ _ Hx)).
  apply andb_prop in Hc as [H1 H2].
  apply binary32_eqb_eq in H1, H2.
  split; [exact H1 | exact H2].
Qed.
End InitialRest.

(** ** A pair of free particles in exact arithmetic *)

Section ExactPair.
Open Scope R_scope.

Lemma solve_constraint_cotton_centroid_aux (cm : Material R) (a b : Particle R) rest :
  locked a = locked b ->
  elasticity (deref cm (material a)) = elasticity (deref cm (material b)) ->
  x (fst (solve_constraint_cotton cm a b rest)) + x (snd (solve_constraint_cotton cm a b rest))
  = x a + x b /\
  y (fst (solve_constraint_cotton cm a b rest)) + y (snd (solve_constraint_cotton cm a b rest))
  = y a + y b.
Proof.
  intros Hl He. unfold solve_constraint_cotton.
  destruct (fgtb _ _); cbn [fst snd]; [| split; reflexivity].
  rewrite Hl. destruct (locked b); cbn [negb]; [split; reflexivity |].
  cbn [x y set_x set_y material fadd fsub fmul real_scalar]. rewrite He.
  split; ring.
Qed.

Lemma solve_constraint_cotton_contracts_aux (cm : Material R) (a b : Particle R) rest e :
  locked a = false -> locked b = false ->
  elasticity (deref cm (material a)) = e -> elasticity (deref cm (material b)) = e ->
  0 <= e <= 1 -> 0 <= rest -> fgtb (distance a b) FLOOR = true ->
  distance (fst (solve_constraint_cotton cm a b rest))
           (snd (solve_constraint_cotton cm a b rest)) - rest
  = (1 - e) * (distance a b - rest).
Proof.
  intros Ha Hb Hea Heb He Hrest Hfl.
  pose proof Hfl as Hfl'. apply Rltb_lt in Hfl'.
  change (@FLOOR R _) with (1 / 10000) in Hfl'.
  unfold solve_constraint_cotton. fold (distance a b).
  change (@flit R _ 1 10000) with (@FLOOR R _). rewrite Hfl, Ha, Hb. cbn [negb fst snd].
  unfold distance at 1.
  cbn [x y set_x set_y material fadd fsub fmul fdiv fsqrt real_scalar].
  rewrite Hea, Heb. change (@flit R _ 5 10) with (5 / 10).
  set (d := distance a b) in *.
  set (X := x b - x a). set (Y := y b - y a).
  set (t := 1 - (d - rest) / d * e).
  assert (Ht : 0 <= t).
  { unfold t. replace (1 - (d - rest) / d * e) with ((1 - e) + e * rest / d) by (field; lra).
    assert (0 <= e * rest / d) by (apply Rmult_le_pos; [nra | left; apply Rinv_0_lt_compat; lra]).
    lra. }
  replace (x b - X * ((d - rest) / d) * (5 / 10) * e - (x a + X * ((d - rest) / d) * (5 / 10) * e))
    with (t * X) by (unfold t, X; field; lra).
  replace (y b - Y * ((d - rest) / d) * (5 / 10) * e - (y a + Y * ((d - rest) / d) * (5 / 10) * e))
    with (t * Y) by (unfold t, Y; field; lra).
  rewrite sqrt_scaled by assumption.
  fold X Y. change (sqrt (X * X + Y * Y)) with d.
  unfold t. field. lra.
Qed.

End ExactPair.

(** ** The stored velocity *)

Section Velocity.
Context {F : Type} `{Scalar F}.

Lemma alike_refl (p : Particle F) : alike p p.
Proof. unfold alike. auto 15. Qed.

Lemma alike_trans (p q r : Particle F) : alike p q -> alike q r -> alike p r.
Proof.
  unfold alike. intros (?&?&?&?&?&?&?&?&?&?&?) (?&?&?&?&?&?&?&?&?&?&?).
  repeat split; congruence.
Qed.

Lemma alike_set_vx v (p : Particle F) : alike p (set_vx v p).
Proof. unfold alike. cbn. auto 15. Qed.

Lemma alike_set_vy v (p : Particle F) : alike p (set_vy v p).
Proof. unfold alike. cbn. auto 15. Qed.

Lemma alike_sym (p q : Particle F) : alike p q -> alike q p.
Proof. unfold alike. intros (?&?&?&?&?&?&?&?&?&?&?). auto 15. Qed.

Lemma deref_set_apply_force f' (cm : Material F) m :
  air_friction (deref (set_apply_force f' cm) m) = air_friction (deref cm m) /\
  elasticity (deref (set_apply_force f' cm) m) = elasticity (deref cm m).
Proof. destruct m; split; reflexivity. Qed.

Lemma apply_force_cotton_set_apply_force f' (cm : Material F) p dt :
  apply_force_cotton (set_apply_force f' cm) p dt = apply_force_cotton cm p dt.
Proof.
  unfold apply_force_cotton.
  cbn [set_force_x set_force_y vx vy mass material force_x force_y].
  now rewrite (proj1 (deref_set_apply_force f' cm (material p))).
Qed.

Lemma call_force_alike_cotton f (cm : Material F) p dt :
  alike (apply_force_cotton cm p dt) (call_force f cm p dt).
Proof.
  destruct f; cbn [call_force]; [apply alike_refl | |];
    unfold apply_force_silk, apply_force_denim;
    (eapply alike_trans; [apply alike_set_vx | apply alike_set_vy]).
Qed.

Lemma call_force_alike f f' (cm : Material F) p dt :
  alike (call_force f cm p dt) (call_force f' (set_apply_force f' cm) p dt).
Proof.
  eapply alike_trans; [apply alike_sym, call_force_alike_cotton |].
  rewrite <- (apply_force_cotton_set_apply_force f' cm).
  apply call_force_alike_cotton.
Qed.

Lemma mouse_snap_alike mx my (p q : Particle F) :
  alike p q -> alike (mouse_snap mx my p) (mouse_snap mx my q).
Proof.
  intros Ha. pose proof Ha as (Hx&Hy&?&?&?&?&?&Hl&?&?&?).
  unfold mouse_snap. rewrite Hx, Hy, Hl.
  destruct (_ && _); [| exact Ha].
  unfold alike. cbn. rewrite ?Hl. auto 15.
Qed.

Lemma solve_constraint_cotton_alike f' (cm : Material F) (a a' b b' : Particle F) rest :
  alike a a' -> alike b b' ->
  alike (fst (solve_constraint_cotton cm a b rest))
        (fst (solve_constraint_cotton (set_apply_force f' cm) a' b' rest)) /\
  alike (snd (solve_constraint_cotton cm a b rest))
        (snd (solve_constraint_cotton (set_apply_force f' cm) a' b' rest)).
Proof.
  intros Ha Hb.
  pose proof Ha as (Hxa&Hya&?&?&?&?&?&Hla&?&?&Hma).
  pose proof Hb as (Hxb&Hyb&?&?&?&?&?&Hlb&?&?&Hmb).
  unfold solve_constraint_cotton.
  rewrite Hxa, Hya, Hxb, Hyb, Hla, Hlb.
  destruct (fgtb _ _); cbn [fst snd]; [| split; assumption].
  split.
  - destruct (locked a') eqn:Hla'; cbn [negb]; [exact Ha |].
    unfold alike. cbn.
    rewrite ?Hxa, ?Hya, ?Hma, ?(proj2 (deref_set_apply_force f' cm (material a'))), ?Hla'.
    auto 15.
  - destruct (locked b') eqn:Hlb'; cbn [negb]; [exact Hb |].
    unfold alike. cbn.
    rewrite ?Hxb, ?Hyb, ?Hmb, ?(proj2 (deref_set_apply_force f' cm (material b'))), ?Hlb'.
    auto 15.
Qed.

Lemma call_solve_alike g f' (cm : Material F) (a a' b b' : Particle F) rest :
  alike a a' -> alike b b' ->
  alike (fst (call_solve g cm a b rest))
        (fst (call_solve g (set_apply_force f' cm) a' b' rest)) /\
  alike (snd (call_solve g cm a b rest))
        (snd (call_solve g (set_apply_force f' cm) a' b' rest)).
Proof.
  intros Ha Hb. destruct g; cbn [call_solve];
    unfold solve_constraint_silk, solve_constraint_denim;
    now apply solve_constraint_cotton_alike.
Qed.

(** The array level. *)
Lemma length_update_loop {A} (g : A -> A) n (l : list A) :
  length (update_loop g n l) = length l.
Proof.
  induction n as [| n IH]; [reflexivity |].
  rewrite update_loop_S. destruct (_ !! n); [rewrite length_insert |]; exact IH.
Qed.

Lemma update_loop_related (Rin : relation (Particle F))
    (g g' : Particle F -> Particle F) n (ps qs : list (Particle F)) :
  (forall p q, Rin p q -> alike (g p) (g' q)) ->
  (forall p q, Rin p q -> alike p q) ->
  Forall2 Rin ps qs ->
  Forall2 alike (update_loop g n ps) (update_loop g' n qs).
Proof.
  intros Hg Hin Hpq. apply Forall2_same_length_lookup_2.
  - rewrite !length_update_loop. eapply Forall2_length; eassumption.
  - intros i p q. rewrite !lookup_update_loop.
    destruct (i <? n)%nat.
    + intros Hp Hq.
      apply fmap_Some in Hp as (p0 & Hp0 & ->). apply fmap_Some in Hq as (q0 & Hq0 & ->).
      apply Hg. eapply Forall2_lookup_lr; eassumption.
    + intros Hp Hq. apply Hin. eapply Forall2_lookup_lr; eassumption.
Qed.

Lemma Forall2_eq_refl (ps : list (Particle F)) : Forall2 eq ps ps.
Proof.
  apply Forall2_same_length_lookup_2; [reflexivity |].
  intros i p q Hp Hq. congruence.
Qed.

Lemma solve_on_alike f' (cm : Material F) c (ps qs : list (Particle F)) :
  Forall2 alike ps qs ->
  Forall2 alike (solve_on cm c ps) (solve_on (set_apply_force f' cm) c qs).
Proof.
  intros Hpq. unfold solve_on.
  destruct (ps !! p1 c) as [a |] eqn:Ha.
  - destruct (Forall2_lookup_l _ _ _ _ _ Hpq Ha) as (a' & Ha' & Haa). rewrite Ha'.
    destruct (ps !! p2 c) as [b |] eqn:Hb.
    + destruct (Forall2_lookup_l _ _ _ _ _ Hpq Hb) as (b' & Hb' & Hbb). rewrite Hb'.
      cbn [solve_constraint set_apply_force].
      destruct (call_solve_alike (solve_constraint cm) f' cm a a' b b' (rest_length c) Haa Hbb)
        as [H1 H2].
      apply Forall2_insert; [apply Forall2_insert |]; assumption.
    + assert (Hn : qs !! p2 c = None).
      { apply lookup_ge_None. rewrite <- (Forall2_length _ _ _ Hpq).
        now apply lookup_ge_None. }
      now rewrite Hn.
  - assert (Hn : qs !! p1 c = None).
    { apply lookup_ge_None. rewrite <- (Forall2_length _ _ _ Hpq).
      now apply lookup_ge_None. }
    now rewrite Hn.
Qed.

Lemma relaxation_loops_alike f' (l : list nat) (s s' : State F) :
  constraints s' = constraints s ->
  current_material s' = set_apply_force f' (current_material s) ->
  Forall2 alike (particles s) (particles s') ->
  Forall2 alike
    (particles
       (fold_left (fun s (j : nat) =>
            set_particles
              (fold_left (solve_at (current_material s) (constraints s))
                         (seq 0 NUM_CONSTRAINTS) (particles s))
              s) l s))
    (particles
       (fold_left (fun s (j : nat) =>
            set_particles
              (fold_left (solve_at (current_material s) (constraints s))
                         (seq 0 NUM_CONSTRAINTS) (particles s))
              s) l s')).
Proof.
  revert s s'. induction l as [| j l IH]; intros s s' Hc Hm Hp; cbn [fold_left];
    [exact Hp |].
  apply IH; cbn [constraints current_material particles set_particles]; try assumption.
  rewrite Hc, Hm.
  generalize (seq 0 NUM_CONSTRAINTS). intros idx.
  revert Hp. generalize (particles s) (particles s'). clear.
  induction idx as [| i idx IHi]; intros ps qs Hp; cbn [fold_left]; [exact Hp |].
  apply IHi. unfold solve_at. destruct (constraints s !! i); [| exact Hp].
  now apply solve_on_alike.
Qed.

Lemma force_loop_alike f' (cm : Material F) dt n (ps : list (Particle F)) :
  Forall2 alike
    (fold_left (force_at cm dt) (seq 0 n) ps)
    (fold_left (force_at (set_apply_force f' cm) dt) (seq 0 n) ps).
Proof.
  pose proof (update_loop_related eq
                (fun p => call_force (apply_force cm) cm p dt)
                (fun p => call_force f' (set_apply_force f' cm) p dt) n ps ps) as HL.
  unfold update_loop in HL. unfold force_at. cbn [apply_force set_apply_force].
  apply HL.
  - intros p q ->. apply call_force_alike.
  - intros p q ->. apply alike_refl.
  - apply Forall2_eq_refl.
Qed.

Lemma set_particles_frame (ps : list (Particle F)) (s : State F) :
  particles (set_particles ps s) = ps /\
  constraints (set_particles ps s) = constraints s /\
  current_material (set_particles ps s) = current_material s /\
  mouse_down (set_particles ps s) = mouse_down s /\
  mouse_x (set_particles ps s) = mouse_x s /\ mouse_y (set_particles ps s) = mouse_y s.
Proof. repeat split; reflexivity. Qed.

Lemma snap_loop_alike mx my n (ps qs : list (Particle F)) :
  Forall2 alike ps qs ->
  Forall2 alike
    (fold_left (fun ps i => match ps !! i with
                            | Some p => <[i := mouse_snap mx my p]> ps
                            | None => ps
                            end) (seq 0 n) ps)
    (fold_left (fun ps i => match ps !! i with
                            | Some p => <[i := mouse_snap mx my p]> ps
                            | None => ps
                            end) (seq 0 n) qs).
Proof.
  intros Hp.
  pose proof (update_loop_related alike (mouse_snap mx my) (mouse_snap mx my) n ps qs) as HL.
  unfold update_loop in HL. apply HL; [| auto | exact Hp].
  intros p q. apply mouse_snap_alike.
Qed.

Lemma handle_mouse_interaction_alike (s s' : State F) :
  mouse_down s' = mouse_down s -> mouse_x s' = mouse_x s -> mouse_y s' = mouse_y s ->
  Forall2 alike (particles s) (particles s') ->
  Forall2 alike (particles (handle_mouse_interaction s))
                (particles (handle_mouse_interaction s')).
Proof.
  intros Hd Hx Hy Hp. unfold handle_mouse_interaction. rewrite Hd, Hx, Hy.
  destruct (mouse_down s); cbn [negb]; [| exact Hp].
  rewrite !(proj1 (set_particles_frame _ _)).
  now apply snap_loop_alike.
Qed.

Lemma handle_mouse_interaction_frame (s : State F) :
  constraints (handle_mouse_interaction s) = constraints s /\
  current_material (handle_mouse_interaction s) = current_material s.
Proof. unfold handle_mouse_interaction. destruct (mouse_down s); split; reflexivity. Qed.

Lemma set_current_material_frame (m : Material F) (s : State F) :
  particles (set_current_material m s) = particles s /\
  constraints (set_current_material m s) = constraints s /\
  current_material (set_current_material m s) = m /\
  mouse_down (set_current_material m s) = mouse_down s /\
  mouse_x (set_current_material m s) = mouse_x s /\
  mouse_y (set_current_material m s) = mouse_y s.
Proof. repeat split; reflexivity. Qed.

Lemma physics_step_alike (dt : F) (s : State F) (f' : ForceFunction) :
  Forall2 alike
    (particles (physics_step dt s))
    (particles (physics_step dt
       (set_current_material (set_apply_force f' (current_material s)) s))).
Proof.
  unfold physics_step.
  destruct (set_current_material_frame (set_apply_force f' (current_material s)) s)
    as (Ep & Ec & Em & Ed & Ex & Ey).
  rewrite Ep, Em.
  set (s' := set_current_material _ s) in *.
  set (ps1 := fold_left (force_at (current_material s) dt) _ _).
  set (ps1' := fold_left (force_at (set_apply_force f' (current_material s)) dt) _ _).
  assert (H1 : Forall2 alike ps1 ps1') by apply force_loop_alike.
  destruct (set_particles_frame ps1 s) as (Fp & Fc & Fm & Fd & Fx & Fy).
  destruct (set_particles_frame ps1' s') as (Fp' & Fc' & Fm' & Fd' & Fx' & Fy').
  apply (relaxation_loops_alike f').
  - rewrite !(proj1 (handle_mouse_interaction_frame _)). now rewrite Fc, Fc', Ec.
  - rewrite !(proj2 (handle_mouse_interaction_frame _)). now rewrite Fm, Fm', Em.
  - apply handle_mouse_interaction_alike.
    + now rewrite Fd, Fd', Ed.
    + now rewrite Fx, Fx', Ex.
    + now rewrite Fy, Fy', Ey.
    + now rewrite Fp, Fp'.
Qed.

End Velocity.

(** ** Further properties of the program *)

Section MoreProperties.
Context {F : Type} `{Scalar F}.

(** [X1] [init_constraints] overwrites the whole constraint array:
    slot [gy * (GRID_WIDTH - 1) + gx] holds the link from cell
    [(gy, gx)] to its right neighbour, and after the
    [(GRID_WIDTH - 1) * GRID_HEIGHT] horizontal links slot
    [gy * GRID_WIDTH + gx] of the rest holds the link from cell
    [(gy, gx)] to the cell below it. *)
Theorem init_constraints_layout (s : State F) :
  length (constraints s) = NUM_CONSTRAINTS ->
  length (constraints (init_constraints s)) = NUM_CONSTRAINTS /\
  (forall gy gx, (gy < GRID_HEIGHT)%nat -> (gx < GRID_WIDTH - 1)%nat ->
     constraints (init_constraints s) !! (gy * (GRID_WIDTH - 1) + gx)%nat
     = Some (hlink (current_material s) gy gx)) /\
  (forall gy gx, (gy < GRID_HEIGHT - 1)%nat -> (gx < GRID_WIDTH)%nat ->
     constraints (init_constraints s)
       !! ((GRID_WIDTH - 1) * GRID_HEIGHT + gy * GRID_WIDTH + gx)%nat
     = Some (vlink (current_material s) gy gx)).
Proof. apply init_constraints_layout_aux. Qed.

(** [X2] After [init_constraints] every constraint of the array joins
    two particles inside the particle array that are neighbours in a
    row or in a column of the grid (so never a particle with itself,
    and never the last cell of a row with the first of the next), has
    the spacing as rest length and the stiffness of the active
    material as strength. *)
Theorem init_constraints_join_neighbours (s : State F) :
  length (constraints s) = NUM_CONSTRAINTS ->
  Forall (fun c => grid_neighbours (p1 c) (p2 c) /\ p1 c <> p2 c /\
                   rest_length c = of_int PARTICLE_SPACING /\
                   strength c = stiffness (current_material s))
         (constraints (init_constraints s)).
Proof.
  intros Hlen. apply Forall_lookup_2. intros k c Hk.
  destruct (init_constraints_cases s k c Hlen Hk)
    as [(gy & gx & Hy & Hx & ->) | (gy & gx & Hy & Hx & ->)].
  - split; [now apply hlink_neighbours |]. cbn [p1 p2 rest_length strength hlink].
    split; [lia |]. split; reflexivity.
  - split; [now apply vlink_neighbours |]. cbn [p1 p2 rest_length strength vlink].
    assert (0 < GRID_WIDTH)%nat by (unfold GRID_WIDTH; lia).
    split; [lia |]. split; reflexivity.
Qed.

(** [X9] The pointer pass is idempotent: applied to its own result,
    on an array of the declared size, it changes nothing more. *)
Theorem handle_mouse_interaction_idempotent (s : State F) :
  length (particles s) = NUM_PARTICLES ->
  handle_mouse_interaction (handle_mouse_interaction s) = handle_mouse_interaction s.
Proof.
  intros Hlen.
  rewrite (handle_mouse_interaction_pass s Hlen).
  rewrite handle_mouse_interaction_pass.
  - cbn [particles set_particles mouse_down mouse_x mouse_y].
    assert (Hsp : forall a b, set_particles a (set_particles b s) = set_particles a s)
      by reflexivity.
    rewrite Hsp. f_equal.
    unfold interaction_pass. destruct (mouse_down s); [| reflexivity].
    rewrite map_map. apply map_ext. intros p. apply mouse_snap_idempotent.
  - cbn [particles set_particles]. unfold interaction_pass.
    destruct (mouse_down s); [rewrite length_map |]; exact Hlen.
Qed.

(** [X10] A quit event does not cut the iteration short: when
    [SDL_QUIT] is among the events of an iteration, the loop still
    runs the physics of that iteration, then stops; the inputs of
    later iterations are ignored. *)
Theorem quit_ends_loop_after_iteration
    (evs : list SDL_Event) (t : Z) (rest : list (list SDL_Event * Z)) (s : State F) :
  running s = true -> In SDL_QUIT evs ->
  main_loop ((evs, t) :: rest) s = loop_body evs t s /\
  running (main_loop ((evs, t) :: rest) s) = false.
Proof.
  intros Hr Hq. cbn [main_loop]. rewrite Hr.
  assert (Hstop : running (loop_body evs t s) = false)
    by (rewrite loop_body_running; now apply handle_events_quit).
  assert (Hm : main_loop rest (loop_body evs t s) = loop_body evs t s)
    by (destruct rest as [| [evs' t'] rest]; cbn [main_loop]; [| rewrite Hstop]; reflexivity).
  rewrite Hm. split; [reflexivity | exact Hstop].
Qed.

(** [X11] Among the events of one iteration the last key 1, 2 or 3
    decides the active material, whatever events precede it and
    whatever events other than these keys follow it; with no such key
    the material stays. *)
Theorem last_material_key_wins
    (pre post : list SDL_Event) (e : SDL_Event) (m : Material F) (s : State F) :
  key_material e = Some m -> Forall (fun e' => key_material e' = None) post ->
  current_material (fold_left handle_event (pre ++ e :: post) s) = m /\
  current_material (fold_left handle_event post s) = current_material s.
Proof.
  intros He Hpost. split; [| now apply handle_events_no_key].
  rewrite fold_left_app. cbn [fold_left].
  rewrite handle_events_no_key by assumption.
  rewrite handle_event_material. now rewrite He.
Qed.

(** [X15] Running the loop never touches the constraint array and
    never changes the number of particles, whatever the events and
    tick counts. *)
Theorem main_loop_keeps_arrays (inputs : list (list SDL_Event * Z)) (s : State F) :
  constraints (main_loop inputs s) = constraints s /\
  length (particles (main_loop inputs s)) = length (particles s).
Proof.
  split; [apply main_loop_constraints |].
  symmetry. eapply Forall2_length. apply main_loop_identity.
Qed.

(** [X16] Running the loop changes only position, previous position,
    velocity and force of a particle: the particle at an index keeps
    its mass, lock flag, material pointer and neighbour fields. *)
Theorem main_loop_keeps_identity
    (inputs : list (list SDL_Event * Z)) (s : State F) (i : nat) (p : Particle F) :
  particles s !! i = Some p ->
  exists q, particles (main_loop inputs s) !! i = Some q /\ same_identity p q.
Proof.
  intros Hi. exact (Forall2_lookup_l _ _ _ _ _ (main_loop_identity inputs s) Hi).
Qed.

(** The time step depends on the tick counts only
    through their difference modulo [2^32]: [n] ticks after
    [last_time] it is [n / 1000], also when the counter wrapped. *)
Lemma frame_dt_wraps (last_time n : Z) :
  0 <= n < 2 ^ 32 ->
  frame_dt last_time ((last_time + n) mod 2 ^ 32) = fdiv (of_int n) (flit 10000 10).
Proof.
  intros Hn. unfold frame_dt. do 2 f_equal.
  rewrite Zminus_mod_idemp_l.
  replace (last_time + n - last_time) with n by lia.
  now apply Z.mod_small.
Qed.

End MoreProperties.

(** [X12] Which force rule the active material points to matters for
    the stored velocity only: a physics step under the same material
    with any other force rule leaves, at every index, a particle that
    agrees in position, previous position, force and every other
    field but [vx], [vy].  No constraint rule and no pointer snap
    reads the velocity. *)
Theorem force_rule_choice_confined
    {F : Type} `{Scalar F} (dt : F) (s : State F) (f' : ForceFunction) :
  Forall2 alike
    (particles (physics_step dt s))
    (particles (physics_step dt
       (set_current_material (set_apply_force f' (current_material s)) s))).
Proof. apply physics_step_alike. Qed.

Section InitCompose.
Context {F : Type} `{Scalar F}.

Lemma particles_init_constraints (s : State F) :
  particles (init_constraints s) = particles s.
Proof. unfold init_constraints. cbn [particles set_constraints]. reflexivity. Qed.

Lemma current_material_init_particles (s : State F) :
  current_material (init_particles s) = current_material s.
Proof. unfold init_particles. cbn [current_material set_particles]. reflexivity. Qed.

Lemma constraints_init_particles (s : State F) :
  constraints (init_particles s) = constraints s.
Proof. unfold init_particles. cbn [constraints set_particles]. reflexivity. Qed.
End InitCompose.

(** [X3] In single precision the cloth starts relaxed: after
    [init_particles] and [init_constraints], the two particles of
    every constraint are in the array and exactly the constraint's
    rest length apart. *)
Theorem initial_grid_at_rest (s : State binary32) :
  length (particles s) = NUM_PARTICLES -> length (constraints s) = NUM_CONSTRAINTS ->
  Forall (fun c =>
            exists a b,
              particles (init_constraints (init_particles s)) !! p1 c = Some a /\
              particles (init_constraints (init_particles s)) !! p2 c = Some b /\
              distance a b = rest_length c)
         (constraints (init_constraints (init_particles s))).
Proof.
  intros Hp Hc. apply Forall_lookup_2. intros k c Hk.
  rewrite particles_init_constraints.
  assert (Hc' : length (constraints (init_particles s)) = NUM_CONSTRAINTS)
    by now rewrite constraints_init_particles.
  assert (HW : (0 < GRID_WIDTH)%nat) by (unfold GRID_WIDTH; lia).
  destruct (init_constraints_cases _ k c Hc' Hk)
    as [(gy & gx & Hy & Hx & ->) | (gy & gx & Hy & Hx & ->)];
    rewrite current_material_init_particles; cbn [p1 p2 rest_length hlink vlink].
  - exists (init_particle (current_material s) gy gx),
           (init_particle (current_material s) gy (gx + 1)).
    split; [apply lookup_init_particles; [assumption | assumption | lia] |].
    split; [rewrite <- Nat.add_assoc; apply lookup_init_particles;
            [assumption | assumption | lia] |].
    apply init_distance_right; lia.
  - exists (init_particle (current_material s) gy gx),
           (init_particle (current_material s) (gy + 1) gx).
    split; [apply lookup_init_particles; [assumption | lia | assumption] |].
    split; [apply lookup_init_particles; [assumption | lia | assumption] |].
    apply init_distance_right; lia.
Qed.


(** [X5] In single precision a time step of zero destroys an unlocked
    particle: whichever force rule is called, its position comes out
    as NaN in both coordinates. *)
Theorem zero_time_step_gives_nan
    (f : ForceFunction) (cm : Material binary32) (p : Particle binary32) (dt : binary32) :
  locked p = false -> is_zero32 dt = true ->
  x (call_force f cm p dt) = S754_nan /\ y (call_force f cm p dt) = S754_nan.
Proof. apply call_force_zero_dt. Qed.

(** [X6] In single precision NaN is permanent: a coordinate of a
    particle that is NaN is NaN after any run of the loop; no force
    rule, constraint rule or pointer snap replaces it. *)
Theorem nan_position_is_permanent
    (inputs : list (list SDL_Event * Z)) (s : State binary32) (i : nat)
    (p : Particle binary32) :
  particles s !! i = Some p ->
  exists q, particles (main_loop inputs s) !! i = Some q /\
            (is_nan32 (x p) = true -> is_nan32 (x q) = true) /\
            (is_nan32 (y p) = true -> is_nan32 (y q) = true).
Proof.
  intros Hi. exact (Forall2_lookup_l _ _ _ _ _ (main_loop_nan_stays inputs s) Hi).
Qed.

(** [X7] In single precision, an iteration that reads the tick count
    of the previous one (a difference of zero modulo [2^32]) computes
    [dt = 0] and leaves every unlocked particle of the array at NaN,
    whatever the events of the iteration. *)
Theorem repeated_tick_destroys_cloth
    (evs : list SDL_Event) (current_time : Z) (s : State binary32) (i : nat)
    (p : Particle binary32) :
  length (particles s) = NUM_PARTICLES ->
  particles s !! i = Some p -> locked p = false ->
  (current_time - last_time s) mod 2 ^ 32 = 0 ->
  exists q, particles (loop_body evs current_time s) !! i = Some q /\
            x q = S754_nan /\ y q = S754_nan.
Proof.
  intros Hlen Hp. apply loop_body_zero_frame_aux; [| exact Hp].
  rewrite <- Hlen. eapply lookup_lt_Some. exact Hp.
Qed.

(** [X8] In single precision the time step of an iteration is the
    elapsed tick count divided by 1000, also when the 32-bit counter
    wrapped between the two readings, and for any two tick counts it
    is zero or positive, never negative and never NaN. *)
Theorem frame_dt_elapsed (last_time n : Z) :
  0 <= n < 2 ^ 32 ->
  @frame_dt binary32 _ last_time ((last_time + n) mod 2 ^ 32)
  = fdiv (of_int n) (flit 10000 10) /\
  forall current_time, nonneg32 (frame_dt last_time current_time) = true.
Proof.
  intros Hn. split; [now apply frame_dt_wraps | intros; apply frame_dt_nonneg].
Qed.

(** [X13] In single precision the energy of a locked particle is [+0]
    under every energy rule, whatever its velocity, height and
    neighbours. *)
Theorem locked_particle_has_no_energy
    (f : EnergyFunction) (cm : Material binary32) (p : Particle binary32)
    (ns : list (Particle binary32)) (k : Z) :
  locked p = true -> call_energy f cm p ns k = S754_zero false.
Proof. apply call_energy_locked_binary32. Qed.




(** ** The further properties at concrete inputs *)

(** [X1] The theorem at the arrays [main] starts with: the first slot
    and the first slot after the horizontal links. *)
Lemma init_constraints_layout_witness :
  length (constraints boot_state) = NUM_CONSTRAINTS /\
  constraints (init_constraints boot_state) !! (0 * (GRID_WIDTH - 1) + 0)%nat
  = Some (hlink (current_material boot_state) 0 0) /\
  constraints (init_constraints boot_state)
    !! ((GRID_WIDTH - 1) * GRID_HEIGHT + 0 * GRID_WIDTH + 0)%nat
  = Some (vlink (current_material boot_state) 0 0).
Proof.
  assert (Hlen : length (constraints boot_state) = NUM_CONSTRAINTS)
    by (vm_compute; reflexivity).
  assert (Hh : (0 < GRID_HEIGHT)%nat) by (unfold GRID_HEIGHT; lia).
  assert (Hw : (0 < GRID_WIDTH - 1)%nat) by (unfold GRID_WIDTH; lia).
  assert (Hh' : (0 < GRID_HEIGHT - 1)%nat) by (unfold GRID_HEIGHT; lia).
  assert (Hw' : (0 < GRID_WIDTH)%nat) by (unfold GRID_WIDTH; lia).
  split; [exact Hlen |].
  split.
  - exact (proj1 (proj2 (init_constraints_layout boot_state Hlen)) 0%nat 0%nat Hh Hw).
  - exact (proj2 (proj2 (init_constraints_layout boot_state Hlen)) 0%nat 0%nat Hh' Hw').
Defined.

(** [X2] The theorem at the arrays [main] starts with. *)
Lemma init_constraints_join_neighbours_witness :
  length (constraints boot_state) = NUM_CONSTRAINTS /\
  Forall (fun c => grid_neighbours (p1 c) (p2 c) /\ p1 c <> p2 c /\
                   rest_length c = of_int PARTICLE_SPACING /\
                   strength c = stiffness (current_material boot_state))
         (constraints (init_constraints boot_state)).
Proof.
  assert (Hlen : length (constraints boot_state) = NUM_CONSTRAINTS)
    by (vm_compute; reflexivity).
  split; [exact Hlen |].
  exact (init_constraints_join_neighbours boot_state Hlen).
Defined.

(** [X3] The theorem at the arrays [main] starts with. *)
Lemma initial_grid_at_rest_witness :
  length (particles boot_state) = NUM_PARTICLES /\
  length (constraints boot_state) = NUM_CONSTRAINTS /\
  Forall (fun c =>
            exists a b,
              particles (init_constraints (init_particles boot_state)) !! p1 c = Some a /\
              particles (init_constraints (init_particles boot_state)) !! p2 c = Some b /\
              distance a b = rest_length c)
         (constraints (init_constraints (init_particles boot_state))).
Proof.
  assert (Hp : length (particles boot_state) = NUM_PARTICLES) by (vm_compute; reflexivity).
  assert (Hc : length (constraints boot_state) = NUM_CONSTRAINTS)
    by (vm_compute; reflexivity).
  split; [exact Hp |]. split; [exact Hc |].
  exact (initial_grid_at_rest boot_state Hp Hc).
Defined.


(** [X5] The theorem at an unlocked cotton particle and [dt = 0]. *)
Lemma zero_time_step_gives_nan_witness :
  let p := particle_at (of_int 32) (of_int 56) false in
  let dt : binary32 := of_int 0 in
  locked p = false /\ is_zero32 dt = true /\
  x (call_force ptr_apply_force_cotton COTTON p dt) = S754_nan /\
  y (call_force ptr_apply_force_cotton COTTON p dt) = S754_nan.
Proof.
  intros p dt. split; [reflexivity |]. split; [reflexivity |].
  apply (zero_time_step_gives_nan ptr_apply_force_cotton COTTON p dt); reflexivity.
Defined.

(** [X6] The theorem at a particle whose [x] is NaN, through one
    iteration. *)
Lemma nan_position_is_permanent_witness :
  let p := particle_at S754_nan (of_int 41) false in
  particles lost_state !! 0%nat = Some p /\
  exists q, particles (main_loop [([], 16)] lost_state) !! 0%nat = Some q /\
            (is_nan32 (x p) = true -> is_nan32 (x q) = true) /\
            (is_nan32 (y p) = true -> is_nan32 (y q) = true).
Proof.
  intros p.
  assert (Hi : particles lost_state !! 0%nat = Some p) by reflexivity.
  split; [exact Hi |].
  exact (nan_position_is_permanent [([], 16)] lost_state 0 p Hi).
Defined.

(** [X7] The theorem at the starting state, whose tick count is 0,
    for the first particle of the second row and a tick count of 0. *)
Lemma repeated_tick_destroys_cloth_witness :
  let p := init_particle (@COTTON binary32 _) 1 0 in
  length (particles initial_state) = NUM_PARTICLES /\
  particles initial_state !! GRID_WIDTH = Some p /\ locked p = false /\
  (0 - last_time initial_state) mod 2 ^ 32 = 0 /\
  exists q, particles (loop_body [] 0 initial_state) !! GRID_WIDTH = Some q /\
            x q = S754_nan /\ y q = S754_nan.
Proof.
  intros p.
  assert (Hlen : length (particles initial_state) = NUM_PARTICLES)
    by (vm_compute; reflexivity).
  assert (Hi : particles initial_state !! GRID_WIDTH = Some p)
    by (vm_compute; reflexivity).
  assert (Hl : locked p = false) by reflexivity.
  assert (Hz : (0 - last_time initial_state) mod 2 ^ 32 = 0) by (vm_compute; reflexivity).
  split; [exact Hlen |]. split; [exact Hi |]. split; [exact Hl |]. split; [exact Hz |].
  exact (repeated_tick_destroys_cloth [] 0 initial_state GRID_WIDTH p Hlen Hi Hl Hz).
Defined.

(** [X8] The theorem five ticks before the counter wraps, 16 ticks
    later. *)
Lemma frame_dt_elapsed_witness :
  0 <= 16 < 2 ^ 32 /\
  @frame_dt binary32 _ (2 ^ 32 - 5) ((2 ^ 32 - 5 + 16) mod 2 ^ 32)
  = fdiv (of_int 16) (flit 10000 10).
Proof.
  assert (Hn : 0 <= 16 < 2 ^ 32) by lia.
  split; [exact Hn |].
  exact (proj1 (frame_dt_elapsed (2 ^ 32 - 5) 16 Hn)).
Defined.

(** [X9] The theorem at the starting state. *)
Lemma handle_mouse_interaction_idempotent_witness :
  length (particles initial_state) = NUM_PARTICLES /\
  handle_mouse_interaction (handle_mouse_interaction initial_state)
  = handle_mouse_interaction initial_state.
Proof.
  assert (Hlen : length (particles initial_state) = NUM_PARTICLES)
    by (vm_compute; reflexivity).
  split; [exact Hlen |].
  exact (handle_mouse_interaction_idempotent initial_state Hlen).
Defined.

(** [X10] The theorem at the starting state, with a quit event at tick
    16 and one more iteration offered. *)
Lemma quit_ends_loop_after_iteration_witness :
  running initial_state = true /\ In SDL_QUIT [SDL_QUIT] /\
  main_loop [([SDL_QUIT], 16); ([], 32)] initial_state
  = loop_body [SDL_QUIT] 16 initial_state.
Proof.
  assert (Hr : running initial_state = true) by reflexivity.
  assert (Hq : In SDL_QUIT [SDL_QUIT]) by (left; reflexivity).
  split; [exact Hr |]. split; [exact Hq |].
  exact (proj1 (quit_ends_loop_after_iteration [SDL_QUIT] 16 [([], 32)] initial_state Hr Hq)).
Defined.

(** [X11] The theorem at the events key 3, key 2, pointer motion. *)
Lemma last_material_key_wins_witness :
  key_material (SDL_KEYDOWN SDLK_2) = Some (@SILK binary32 _) /\
  Forall (fun e' => @key_material binary32 _ e' = None) [SDL_MOUSEMOTION 1 2] /\
  current_material
    (fold_left handle_event ([SDL_KEYDOWN SDLK_3] ++ SDL_KEYDOWN SDLK_2 :: [SDL_MOUSEMOTION 1 2])
       initial_state)
  = SILK.
Proof.
  assert (He : key_material (SDL_KEYDOWN SDLK_2) = Some (@SILK binary32 _)) by reflexivity.
  assert (Hp : Forall (fun e' => @key_material binary32 _ e' = None) [SDL_MOUSEMOTION 1 2])
    by (repeat constructor).
  split; [exact He |]. split; [exact Hp |].
  exact (proj1 (last_material_key_wins [SDL_KEYDOWN SDLK_3] [SDL_MOUSEMOTION 1 2]
                  (SDL_KEYDOWN SDLK_2) SILK initial_state He Hp)).
Defined.

(** [X13] The theorem at a locked particle with one neighbour, under
    silk's rule. *)
Lemma locked_particle_has_no_energy_witness :
  let p := particle_at (of_int 32) (of_int 41) true in
  locked p = true /\
  call_energy ptr_calc_energy_silk COTTON p [particle_at (of_int 47) (of_int 41) true] 1
  = S754_zero false.
Proof.
  intros p. split; [reflexivity |].
  apply (locked_particle_has_no_energy ptr_calc_energy_silk COTTON p). reflexivity.
Defined.

(** [X16] The theorem at the first particle of the starting state,
    through one iteration. *)
Lemma main_loop_keeps_identity_witness :
  let p := init_particle (@COTTON binary32 _) 0 0 in
  particles initial_state !! 0%nat = Some p /\
  exists q, particles (main_loop [([SDL_KEYDOWN SDLK_3], 16)] initial_state) !! 0%nat = Some q /\
            same_identity p q.
Proof.
  intros p.
  assert (Hi : particles initial_state !! 0%nat = Some p) by (vm_compute; reflexivity).
  split; [exact Hi |].
  exact (main_loop_keeps_identity [([SDL_KEYDOWN SDLK_3], 16)] initial_state 0 p Hi).
Defined.

Section ExactWitnesses.
Open Scope R_scope.

Lemma distance_real_particles_apart (l1 l2 : bool) :
  distance (real_particle_at 0 0 l1) (real_particle_at 2 0 l2) = 2.
Proof.
  unfold distance. cbn [x y real_particle_at fsub fmul fadd fsqrt real_scalar].
  replace ((2 - 0) * (2 - 0) + (0 - 0) * (0 - 0)) with (2 * 2) by ring.
  apply sqrt_square. lra.
Qed.



End ExactWitnesses.
